(** * CorridorBots: the Quoridor rules engine

    A shallow embedding of [Board.h], [Board.cpp], [tablegame_engine.h] and
    [tablegame_engine.cpp], and the properties of the engine that the
    specification states.

    Conventions of the embedding.
    - [int8_t] and [int] values are integers of [Z]; every narrowing
      conversion of the source is written [to_int8] or [to_int].
    - A method that only reads the engine is a function of the engine into
      [result]; a method that writes it is a computation of the monad [M],
      which threads the engine and stops at the first exception.
    - [assert] is a macro of <cassert>: the switch [NDEBUG] is a variable of
      the section in which the methods that assert are defined.
    - The texts of the exception messages are not modelled, only the class
      of the exception thrown. *)

From Stdlib Require Import ZArith List String Bool Lia.
Import ListNotations.
Local Open Scope Z_scope.

(** ** Machine integers *)

(** [static_cast<int8_t>( z )] *)
Definition to_int8 (z : Z) : Z := (z + 128) mod 256 - 128.

(** conversion of a wider integer (a [size_t]) to [int] *)
Definition to_int (z : Z) : Z := (z + 2147483648) mod 4294967296 - 2147483648.

Definition INT_MAX : Z := 2147483647.

(** ** Board.h *)

(** [struct Pos_t { int8_t x; int8_t y; }] *)
Record Pos_t : Type := mkPos { x : Z; y : Z }.

(** [Pos_t::operator+] *)
Definition Pos_add (a rhs : Pos_t) : Pos_t :=
  mkPos (to_int8 (x a + x rhs)) (to_int8 (y a + y rhs)).

(** [Pos_t::operator-] *)
Definition Pos_sub (a rhs : Pos_t) : Pos_t :=
  mkPos (to_int8 (x a - x rhs)) (to_int8 (y a - y rhs)).

(** [Pos_t::operator==] *)
Definition Pos_eqb (a rhs : Pos_t) : bool :=
  (x a =? x rhs) && (y a =? y rhs).

(** [struct PlayerPiece_t { Pos_t pos; std::string name; }] *)
Module PlayerPiece.
Record t : Type := mk { pos : Pos_t; name : string }.
End PlayerPiece.
Definition PlayerPiece_t : Type := PlayerPiece.t.

(** [struct WallPiece_t { Pos_t pos; bool vertical; }] *)
Module WallPiece.
Record t : Type := mk { pos : Pos_t; vertical : bool }.
End WallPiece.
Definition WallPiece_t : Type := WallPiece.t.

(** [WallPiece_t::operator==] *)
Definition Wall_eqb (a rhs : WallPiece_t) : bool :=
  Pos_eqb (WallPiece.pos a) (WallPiece.pos rhs) &&
  Bool.eqb (WallPiece.vertical a) (WallPiece.vertical rhs).

Definition PlayersList_t : Type := list PlayerPiece_t.
Definition WallsList_t : Type := list WallPiece_t.

(** [struct Board_t { PlayersList_t players; WallsList_t walls; }] *)
Record Board_t : Type := mkBoard { players : PlayersList_t; walls : WallsList_t }.

(** ** std::set and std::multimap

    The engine keeps [std::set<Pos_t>], [std::set<WallPiece_t>] and a
    [std::multimap<Pos_t, Pos_t>].  The ordering they sort by is not declared
    in [Board.h]; a set is a list without repetition here, a multimap a list
    of pairs, and both are walked in the order of insertion.  No result
    below depends on the order of a walk. *)

Definition PosSet : Type := list Pos_t.

(** [s.find( p ) != s.end()] *)
Definition PosSet_mem (p : Pos_t) (s : PosSet) : bool := existsb (Pos_eqb p) s.

(** [s.insert( p )] *)
Definition PosSet_insert (p : Pos_t) (s : PosSet) : PosSet :=
  if PosSet_mem p s then s else s ++ [p].

Definition WallSet : Type := list WallPiece_t.

Definition WallSet_mem (w : WallPiece_t) (s : WallSet) : bool := existsb (Wall_eqb w) s.

(** [s.emplace( w )] *)
Definition WallSet_emplace (w : WallPiece_t) (s : WallSet) : WallSet :=
  if WallSet_mem w s then s else s ++ [w].

(** [std::multimap<Pos_t, Pos_t>]: the key is the first component *)
Definition PosMultimap : Type := list (Pos_t * Pos_t).

(** [m.erase( key )]: every entry under the key goes *)
Definition PosMultimap_erase (key : Pos_t) (m : PosMultimap) : PosMultimap :=
  filter (fun entry => negb (Pos_eqb (fst entry) key)) m.

(** ** tablegame_engine.h: exceptions and results *)

Inductive exception : Type :=
| IllegalMoveException
| PlayerNotFoundException
| TooFewPlayersException.

(** How a call ends: it returns, it throws, a failed [assert] aborts the
    program, or it does what the language leaves undefined (a read past the
    end of an array, an overflow of a signed integer). *)
Inductive result (A : Type) : Type :=
| Val (a : A)
| Throw (ex : exception)
| Abort
| Undefined.

Arguments Val {A} a.
Arguments Throw {A} ex.
Arguments Abort {A}.
Arguments Undefined {A}.

Definition result_bind {A B : Type} (c : result A) (k : A -> result B) : result B :=
  match c with
  | Val a => k a
  | Throw ex => Throw ex
  | Abort => Abort
  | Undefined => Undefined
  end.

Notation "x <- c ;; k" := (result_bind c (fun x => k))
  (at level 61, c at next level, right associativity).
Notation "c ;; k" := (result_bind c (fun _ => k))
  (at level 61, right associativity).

(** The engine: [TablegameEngine_t] holds [m_board] and [m_current_player],
    [QuoridorEngine_t] adds [m_walls_on_board]. *)
Record QuoridorEngine_t : Type := mkEngine {
  m_board : Board_t;
  m_current_player : Z;
  m_walls_on_board : WallSet
}.

(** A method that writes the engine. The engine returned with a [Throw] is
    the engine at the point of the [throw]. *)
Definition M (A : Type) : Type := QuoridorEngine_t -> result A * QuoridorEngine_t.

Definition M_ret {A : Type} (a : A) : M A := fun e => (Val a, e).

Definition M_bind {A B : Type} (c : M A) (k : A -> M B) : M B :=
  fun e =>
    match c e with
    | (Val a, e') => k a e'
    | (Throw ex, e') => (Throw ex, e')
    | (Abort, e') => (Abort, e')
    | (Undefined, e') => (Undefined, e')
    end.

Notation "x <~ c ;; k" := (M_bind c (fun x => k))
  (at level 61, c at next level, right associativity).

(** a [const] method called from a method that writes *)
Definition read {A : Type} (f : QuoridorEngine_t -> result A) : M A :=
  fun e => (f e, e).

Definition throw {A : Type} (ex : exception) : M A := fun e => (Throw ex, e).

Definition modify (f : QuoridorEngine_t -> QuoridorEngine_t) : M unit :=
  fun e => (Val tt, f e).

(** ** Constants of QuoridorEngine_t *)

Definition m_board_side_length : Z := 9.
Definition m_wall_pos_per_side : Z := m_board_side_length - 1.

(** [constexpr static Pos_t player_positions[4]] *)
Definition player_positions : list Pos_t :=
  [mkPos 0 4; mkPos 8 4; mkPos 4 0; mkPos 4 8].

(** [player_positions[ i ]]: reading past the fourth entry is undefined *)
Definition player_positions_at (i : Z) : result Pos_t :=
  if i <? 0 then Undefined
  else match nth_error player_positions (Z.to_nat i) with
       | Some p => Val p
       | None => Undefined
       end.

(** ** Grid geometry *)

(** [QuoridorEngine_t::IsPosLegal] *)
Definition IsPosLegal (pos : Pos_t) : bool :=
  (x pos >=? 0) && (x pos <? m_board_side_length) &&
  (y pos >=? 0) && (y pos <? m_board_side_length).

(** [QuoridorEngine_t::IsWallLegal] *)
Definition IsWallLegal (wall : WallPiece_t) : bool :=
  let pos := WallPiece.pos wall in
  (x pos >=? 0) && (x pos <? m_wall_pos_per_side) &&
  (y pos >=? 0) && (y pos <? m_wall_pos_per_side).

(** [QuoridorEngine_t::findWall] *)
Definition findWall (e : QuoridorEngine_t) (wall : WallPiece_t) : bool :=
  WallSet_mem wall (m_walls_on_board e).

(** [QuoridorEngine_t::IsPosFree] *)
Definition IsPosFree (e : QuoridorEngine_t) (pos : Pos_t) : bool :=
  forallb (fun player_piece => negb (Pos_eqb (PlayerPiece.pos player_piece) pos))
          (players (m_board e)).

(** [QuoridorEngine_t::GetGoalPosForPlayerIndex]. The guard lets index 4
    through, and the coordinate of the far side is taken from the [x] of the
    starting position on both branches, as in the source. *)
Definition GetGoalPosForPlayerIndex (player_index : Z) : result PosSet :=
  if (player_index <? 0) || (player_index >? 4) then Val []
  else
    start <- player_positions_at player_index ;;
    let opposite_side_coordinate := to_int8 (m_board_side_length - 1 - x start) in
    let goal_at (j : Z) : Pos_t :=
      if y start =? 4 then mkPos opposite_side_coordinate j
      else mkPos j opposite_side_coordinate in
    Val (fold_left (fun goal_pos j => PosSet_insert (goal_at j) goal_pos)
                   (map Z.of_nat (seq 0 (Z.to_nat m_board_side_length))) []).

(** [QuoridorEngine_t::CheckAddWall] *)
Definition CheckAddWall (e : QuoridorEngine_t) (wall : WallPiece_t) : bool :=
  if negb (IsWallLegal wall) then false
  else
    let x := x (WallPiece.pos wall) in
    let y := y (WallPiece.pos wall) in
    let vertical := WallPiece.vertical wall in
    negb (findWall e wall) &&
    negb (findWall e (WallPiece.mk (WallPiece.pos wall) (negb vertical))) &&
    negb (findWall e (WallPiece.mk (mkPos (to_int8 (x + Z.b2z (negb vertical)))
                                    (to_int8 (y + Z.b2z vertical))) vertical)) &&
    negb (findWall e (WallPiece.mk (mkPos (to_int8 (x - Z.b2z (negb vertical)))
                                    (to_int8 (y - Z.b2z vertical))) vertical)).

Section Assertions.

(** [true] when the engine is compiled with [NDEBUG], which turns
    [assert] into nothing. *)
Variable NDEBUG : bool.

Definition assert (condition : bool) : result unit :=
  if condition then Val tt else if NDEBUG then Val tt else Abort.

(** [QuoridorEngine_t::IsWallBetweenAdjPos( Pos_t a, Pos_t b )] *)
Definition IsWallBetweenAdjPos (e : QuoridorEngine_t) (a b : Pos_t) : result bool :=
  assert (Z.abs (x b - x a) + Z.abs (y b - y a) =? 1) ;;
  if negb (IsPosLegal a) || negb (IsPosLegal b) then Val true
  else
    let x_min := if x a <? x b then x a else x b in
    let y_min := if y a <? y b then y a else y b in
    let vertical := negb (y_min =? 0) in
    Val (findWall e (WallPiece.mk (mkPos x_min y_min) (negb vertical)) ||
         findWall e (WallPiece.mk (mkPos (to_int8 (x_min - Z.b2z vertical))
                                   (to_int8 (y_min - Z.b2z (negb vertical))))
                            (negb vertical))).

(** [QuoridorEngine_t::IsWallBetweenAdjPos( Pos_t a, Pos_t b, WallPiece_t wall )] *)
Definition IsWallBetweenAdjPos_wall (a b : Pos_t) (wall : WallPiece_t) : result bool :=
  assert (Z.abs (x b - x a) + Z.abs (y b - y a) =? 1) ;;
  if negb (IsPosLegal a) || negb (IsPosLegal b) || negb (IsWallLegal wall) then Val false
  else
    let x_min := if x a <? x b then x a else x b in
    let y_min := if y a <? y b then y a else y b in
    let vertical := negb (y_min =? 0) in
    Val (negb (Bool.eqb vertical (WallPiece.vertical wall)) &&
         (Pos_eqb (WallPiece.pos wall) (mkPos x_min y_min) ||
          Pos_eqb (WallPiece.pos wall)
                  (mkPos (to_int8 (x_min - Z.b2z vertical))
                         (to_int8 (y_min - Z.b2z (negb vertical)))))).

(** One turn of the loop of the diagonal branch of [CheckMove]: the
    condition of its [if], with the short circuit of [&&]. *)
Definition diagonal_elbow (e : QuoridorEngine_t) (cur_pos new_pos pos_jump_over : Pos_t)
  : result bool :=
  let pos_straight_jump_to :=
    mkPos (to_int8 (2 * x cur_pos - x pos_jump_over))
          (to_int8 (2 * y cur_pos - y pos_jump_over)) in
  if IsPosFree e pos_jump_over then Val false
  else
    blocked <- IsWallBetweenAdjPos e pos_jump_over pos_straight_jump_to ;;
    if negb blocked then Val false
    else
      wall_before <- IsWallBetweenAdjPos e cur_pos pos_jump_over ;;
      if wall_before then Val false
      else
        wall_after <- IsWallBetweenAdjPos e pos_jump_over new_pos ;;
        Val (negb wall_after).

(** [QuoridorEngine_t::CheckMove] *)
Definition CheckMove (e : QuoridorEngine_t) (cur_pos new_pos : Pos_t) : result bool :=
  if negb (IsPosLegal new_pos) then Val false
  else if negb (IsPosFree e new_pos) then Val false
  else
    let x_diff := to_int8 (x new_pos - x cur_pos) in
    let y_diff := to_int8 (y new_pos - y cur_pos) in
    let pos_diff := to_int8 (Z.abs x_diff + Z.abs y_diff) in
    if (pos_diff =? 0) || (pos_diff >? 2) then Val false
    else
      wall_between <- IsWallBetweenAdjPos e cur_pos new_pos ;;
      if wall_between then Val false
      else if pos_diff =? 1 then Val true
      else if (Z.abs y_diff =? 2) || (Z.abs x_diff =? 2) then
        let pos_jump_over :=
          mkPos (to_int8 (x cur_pos + Z.quot x_diff 2))
                (to_int8 (y cur_pos + Z.quot y_diff 2)) in
        if IsPosFree e pos_jump_over then Val false
        else IsWallBetweenAdjPos e pos_jump_over new_pos
      else
        first_elbow <- diagonal_elbow e cur_pos new_pos (mkPos (x cur_pos) (y new_pos)) ;;
        if first_elbow then Val true
        else
          second_elbow <- diagonal_elbow e cur_pos new_pos (mkPos (x new_pos) (y cur_pos)) ;;
          if second_elbow then Val true else Val false.


(** *** The path finder of [CheckWallBlocksPath] *)

(** [std::unique_ptr<T>]: [None] is the null pointer, which is what
    [UPTR( T ) p {}] makes. *)
Definition unique_ptr (T : Type) : Type := option T.

(** [*p] and [p->...]: undefined on the null pointer *)
Definition deref {T : Type} (p : unique_ptr T) : result T :=
  match p with
  | Some target => Val target
  | None => Undefined
  end.

(** The three containers the [while] loop of [CheckWallBlocksPath] works on. *)
Record path_state : Type := mkPathState {
  reachable_pos : unique_ptr PosSet;
  last_iter_pos : unique_ptr PosSet;
  to_from_check_pairs : PosMultimap
}.

(** How one turn of the [while( true )] loop ends. *)
Inductive loop_exit : Type :=
| Continue (s : path_state)      (* falls through to the next turn *)
| Break                          (* [do_break]: on to the next player *)
| Return (blocked : bool).       (* [return true] *)

Definition left : Pos_t := mkPos (-1) 0.
Definition right : Pos_t := mkPos 1 0.
Definition up : Pos_t := mkPos 0 (-1).
Definition down : Pos_t := mkPos 0 1.

(** the first [for]: four entries (to, from) for every reachable position *)
Definition insert_neighbours (reachable : PosSet) (pairs : PosMultimap) : PosMultimap :=
  fold_left (fun pairs pos =>
               pairs ++ [(Pos_add pos left, pos); (Pos_add pos right, pos);
                         (Pos_add pos up, pos); (Pos_add pos down, pos)])
            reachable pairs.

(** the inner [while]: the entries whose key was reached the turn before go *)
Definition erase_last_iter (last : PosSet) (pairs : PosMultimap) : PosMultimap :=
  fold_left (fun pairs pos => PosMultimap_erase pos pairs) last pairs.

(** the second [for], over the pairs: [pos_pair.first] is the key,
    [pos_pair.second] the position the entry was made from.  The result is
    [do_break] and the new [reachable_pos]. *)
Fixpoint check_pairs (e : QuoridorEngine_t) (wall : WallPiece_t) (goal_pos : PosSet)
  (pairs : PosMultimap) (reachable : PosSet) : result (bool * PosSet) :=
  match pairs with
  | [] => Val (false, reachable)
  | pos_pair :: rest =>
      wall_on_board <- IsWallBetweenAdjPos e (snd pos_pair) (fst pos_pair) ;;
      open <- (if wall_on_board then Val false
               else added <- IsWallBetweenAdjPos_wall (snd pos_pair) (fst pos_pair) wall ;;
                    Val (negb added)) ;;
      if open then
        if PosSet_mem (snd pos_pair) goal_pos then Val (true, reachable)
        else check_pairs e wall goal_pos rest (PosSet_insert (snd pos_pair) reachable)
      else check_pairs e wall goal_pos rest reachable
  end.

(** One turn of the [while( true )] loop. Both sets are reached through
    their pointers; at the end [last_iter_pos] has taken over the set of
    [reachable_pos], which points to a new set. *)
Definition path_step (e : QuoridorEngine_t) (wall : WallPiece_t) (goal_pos : PosSet)
  (s : path_state) : result loop_exit :=
  reachable <- deref (reachable_pos s) ;;
  let pairs := insert_neighbours reachable (to_from_check_pairs s) in
  last <- deref (last_iter_pos s) ;;
  let pairs := erase_last_iter last pairs in
  checked <- check_pairs e wall goal_pos pairs [] ;;
  if fst checked then Val Break
  else if match snd checked with [] => true | _ => false end then Val (Return true)
  else Val (Continue (mkPathState (Some (snd checked)) (Some reachable) [])).

(** The [while( true )] loop, for at most [fuel] turns: [None] when the loop
    is still running after them. *)
Fixpoint path_loop (fuel : nat) (e : QuoridorEngine_t) (wall : WallPiece_t)
  (goal_pos : PosSet) (s : path_state) : option (result loop_exit) :=
  match fuel with
  | O => None
  | S fuel' =>
      match path_step e wall goal_pos s with
      | Val (Continue s') => path_loop fuel' e wall goal_pos s'
      | other => Some other
      end
  end.

(** The [for] over the players, from [player_index] on. The two pointers
    are null when [reachable_pos->insert( player_pos )] goes through the
    first of them. *)
Fixpoint players_loop (fuel : nat) (e : QuoridorEngine_t) (wall : WallPiece_t)
  (player_index : Z) (rest : PlayersList_t) : option (result bool) :=
  match rest with
  | [] => Some (Val false)
  | player_piece :: rest' =>
      match GetGoalPosForPlayerIndex player_index with
      | Val goal_pos =>
          let reachable_pos : unique_ptr PosSet := None in
          let last_iter_pos : unique_ptr PosSet := None in
          match deref reachable_pos with
          | Val reachable =>
              match path_loop fuel e wall goal_pos
                      (mkPathState
                         (Some (PosSet_insert (PlayerPiece.pos player_piece) reachable))
                         last_iter_pos []) with
              | None => None
              | Some (Val Break) => players_loop fuel e wall (player_index + 1) rest'
              | Some (Val (Return blocked)) => Some (Val blocked)
              | Some (Val (Continue _)) => None
              | Some (Throw ex) => Some (Throw ex)
              | Some Abort => Some Abort
              | Some Undefined => Some Undefined
              end
          | Throw ex => Some (Throw ex)
          | Abort => Some Abort
          | Undefined => Some Undefined
          end
      | Throw ex => Some (Throw ex)
      | Abort => Some Abort
      | Undefined => Some Undefined
      end
  end.

(** [QuoridorEngine_t::CheckWallBlocksPath]; [fuel] bounds the turns of each
    [while] loop, and [None] says that a loop needs more. *)
Definition CheckWallBlocksPath (fuel : nat) (e : QuoridorEngine_t) (wall : WallPiece_t)
  : option (result bool) :=
  players_loop fuel e wall 0 (players (m_board e)).

(** *** Commands *)

(** [TablegameEngine_t::findPlayer]: the iterator is the index it stands at,
    [players.end()] the length of the list. *)
Fixpoint findPlayer_in (players_list : PlayersList_t) (player_name : string) : nat :=
  match players_list with
  | [] => O
  | player_piece :: rest =>
      if String.eqb (PlayerPiece.name player_piece) player_name then O
      else S (findPlayer_in rest player_name)
  end.

Definition findPlayer (e : QuoridorEngine_t) (player_name : string) : nat :=
  findPlayer_in (players (m_board e)) player_name.

(** [TablegameEngine_t::GetPlayerPos] *)
Definition GetPlayerPos (e : QuoridorEngine_t) (player_name : string) : result Pos_t :=
  match nth_error (players (m_board e)) (findPlayer e player_name) with
  | None => Throw PlayerNotFoundException
  | Some player_piece => Val (PlayerPiece.pos player_piece)
  end.

(** the write through the reference that [GetPlayerPos] returned *)
Fixpoint assign_pos (players_list : PlayersList_t) (it : nat) (new_pos : Pos_t)
  : PlayersList_t :=
  match players_list, it with
  | [], _ => []
  | player_piece :: rest, O => PlayerPiece.mk new_pos (PlayerPiece.name player_piece) :: rest
  | player_piece :: rest, S it' => player_piece :: assign_pos rest it' new_pos
  end.

Definition set_players (e : QuoridorEngine_t) (players_list : PlayersList_t)
  : QuoridorEngine_t :=
  mkEngine (mkBoard players_list (walls (m_board e)))
           (m_current_player e) (m_walls_on_board e).

Definition set_current_player (e : QuoridorEngine_t) (index : Z) : QuoridorEngine_t :=
  mkEngine (m_board e) index (m_walls_on_board e).

(** [QuoridorEngine_t::MovePlayer] *)
Definition MovePlayer (player_name : string) (new_pos : Pos_t) : M unit :=
  player_pos <~ read (fun e => GetPlayerPos e player_name) ;;
  legal <~ read (fun e => CheckMove e player_pos new_pos) ;;
  if negb legal then throw IllegalMoveException
  else modify (fun e => set_players e (assign_pos (players (m_board e))
                                                  (findPlayer e player_name) new_pos)).

(** [PlayerQuoridorEngine_t::IsMovePossible] *)
Definition IsMovePossible (e : QuoridorEngine_t) (player_name : string) (pos : Pos_t)
  : result bool :=
  player_pos <- GetPlayerPos e player_name ;;
  CheckMove e player_pos pos.

End Assertions.

(** [QuoridorEngine_t::AddWall] *)
Definition AddWall (wall : WallPiece_t) : M unit :=
  legal <~ read (fun e => Val (CheckAddWall e wall)) ;;
  if negb legal then throw IllegalMoveException
  else
    _ <~ modify (fun e => mkEngine (mkBoard (players (m_board e)) (walls (m_board e) ++ [wall]))
                                   (m_current_player e) (m_walls_on_board e)) ;;
    modify (fun e => mkEngine (m_board e) (m_current_player e)
                              (WallSet_emplace wall (m_walls_on_board e))).

(** [for ( int i = first; ...; i++ )], [count] turns of it *)
Fixpoint for_loop (count : nat) (i : Z) (body : Z -> M unit) : M unit :=
  match count with
  | O => M_ret tt
  | S count' => _ <~ body i ;; for_loop count' (i + 1) body
  end.

(** [player_names[ i ]] *)
Definition player_names_at (player_names : list string) (i : Z) : result string :=
  if i <? 0 then Undefined
  else match nth_error player_names (Z.to_nat i) with
       | Some player_name => Val player_name
       | None => Undefined
       end.

(** the body of the loop of [QuoridorInit]: one [push_back] *)
Definition push_player (player_names : list string) (i : Z) : M unit :=
  start <~ read (fun _ => player_positions_at i) ;;
  player_name <~ read (fun _ => player_names_at player_names i) ;;
  modify (fun e => set_players e (players (m_board e) ++
                                  [PlayerPiece.mk start player_name])).

(** [QuoridorEngine_t::QuoridorInit] *)
Definition QuoridorInit (player_names : list string) : M unit :=
  let player_names_size := to_int (Z.of_nat (List.length player_names)) in
  if player_names_size <? 2 then throw TooFewPlayersException
  else
    let player_names_size := if player_names_size >=? 4 then 4 else 2 in
    for_loop (Z.to_nat player_names_size) 0 (push_player player_names).

(** [TablegameEngine_t::NextTurn]. The increment of an [int] that holds
    [INT_MAX] is undefined. *)
Definition NextTurn : M unit :=
  players_count <~ read (fun e => Val (to_int (Z.of_nat (List.length (players (m_board e)))))) ;;
  current <~ read (fun e => Val (m_current_player e)) ;;
  if current =? INT_MAX then read (fun _ => Undefined)
  else
    _ <~ modify (fun e => set_current_player e (current + 1)) ;;
    modify (fun e => set_current_player e
                       (if m_current_player e =? players_count then 0
                        else m_current_player e)).

(** [TablegameEngine_t::GetCurrentPlayer] *)
Definition GetCurrentPlayer (e : QuoridorEngine_t) : Z := m_current_player e.

(** [PlayerQuoridorEngine_t::IsWallPossible] *)
Definition IsWallPossible (e : QuoridorEngine_t) (wall : WallPiece_t) : bool :=
  CheckAddWall e wall.

(** [PlayerQuoridorEngine_t::UpdateBoard] *)
Definition UpdateBoard (board : Board_t) : M unit :=
  modify (fun e => mkEngine board (m_current_player e) (m_walls_on_board e)).

(** a command repeated [n] times *)
Fixpoint repeat_command (n : nat) (c : M unit) : M unit :=
  match n with
  | O => M_ret tt
  | S n' => _ <~ c ;; repeat_command n' c
  end.

(** The commands of [QuoridorEngine_t] that write the engine. *)
Inductive command : Type :=
| DoMovePlayer (player_name : string) (new_pos : Pos_t)
| DoAddWall (wall : WallPiece_t)
| DoQuoridorInit (player_names : list string).

Definition run_command (NDEBUG : bool) (c : command) : M unit :=
  match c with
  | DoMovePlayer player_name new_pos => MovePlayer NDEBUG player_name new_pos
  | DoAddWall wall => AddWall wall
  | DoQuoridorInit player_names => QuoridorInit player_names
  end.

(** The engine as its default constructor leaves it. *)
Definition new_engine : QuoridorEngine_t := mkEngine (mkBoard [] []) 0 [].

(** ** The winner and the possible moves *)

(** the loop of [FindWinner], from [player_index] on *)
Fixpoint FindWinner_from (player_index : Z) (rest : PlayersList_t) : result string :=
  match rest with
  | [] => Val EmptyString
  | player_piece :: rest' =>
      goal_pos <- GetGoalPosForPlayerIndex player_index ;;
      if PosSet_mem (PlayerPiece.pos player_piece) goal_pos
      then Val (PlayerPiece.name player_piece)
      else FindWinner_from (player_index + 1) rest'
  end.

(** [QuoridorEngine_t::FindWinner] *)
Definition FindWinner (e : QuoridorEngine_t) : result string :=
  FindWinner_from 0 (players (m_board e)).

(** [s.empty()] of a [std::string] *)
Definition string_empty (s : string) : bool :=
  match s with
  | EmptyString => true
  | String _ _ => false
  end.

(** [QuoridorEngine_t::IsGameOver] *)
Definition IsGameOver (e : QuoridorEngine_t) : result bool :=
  winner <- FindWinner e ;;
  Val (negb (string_empty winner)).

(** [QuoridorEngine_t::FinishGame]: the body is empty *)
Definition FinishGame : M unit := M_ret tt.

(** [s.erase( p )] of a [std::set<Pos_t>] *)
Definition PosSet_erase (p : Pos_t) (s : PosSet) : PosSet :=
  filter (fun q => negb (Pos_eqb q p)) s.

(** the body of the first loop of [GetPossibleMoves]: a free neighbour is a
    candidate, an occupied one gives its own four neighbours *)
Definition collect_candidates (e : QuoridorEngine_t) (moves_to_check : PosSet)
  (adj_move : Pos_t) : PosSet :=
  if IsPosFree e adj_move then PosSet_insert adj_move moves_to_check
  else PosSet_insert (Pos_add adj_move down)
         (PosSet_insert (Pos_add adj_move up)
            (PosSet_insert (Pos_add adj_move right)
               (PosSet_insert (Pos_add adj_move left) moves_to_check))).

(** the set [moves_to_check] of [GetPossibleMoves] *)
Definition moves_to_check_of (e : QuoridorEngine_t) (player_pos : Pos_t) : PosSet :=
  let adj_moves := [Pos_add player_pos left; Pos_add player_pos right;
                    Pos_add player_pos up; Pos_add player_pos down] in
  PosSet_erase player_pos (fold_left (collect_candidates e) adj_moves []).

(** the second loop of [GetPossibleMoves]: the candidates that [CheckMove]
    accepts, in the order of the walk *)
Fixpoint possible_moves_of (NDEBUG : bool) (e : QuoridorEngine_t) (player_pos : Pos_t)
  (moves_to_check : list Pos_t) : result (list Pos_t) :=
  match moves_to_check with
  | [] => Val []
  | move_to_check :: rest =>
      legal <- CheckMove NDEBUG e player_pos move_to_check ;;
      possible_moves <- possible_moves_of NDEBUG e player_pos rest ;;
      Val (if legal then move_to_check :: possible_moves else possible_moves)
  end.

(** [PlayerQuoridorEngine_t::GetPossibleMoves] *)
Definition GetPossibleMoves (NDEBUG : bool) (e : QuoridorEngine_t) (player_name : string)
  : result (list Pos_t) :=
  player_pos <- GetPlayerPos e player_name ;;
  possible_moves_of NDEBUG e player_pos (moves_to_check_of e player_pos).

(** ** The error kinds of the specification *)

(** The specification (section 7) names four kinds of rejection.  The
    engine declares three exception classes; each is the kind of the same
    name, and no class stands for [IllegalWallPlacement]. *)
Inductive error_kind : Type :=
| IllegalMove
| IllegalWallPlacement
| PlayerNotFound
| TooFewPlayers.

Definition error_kind_of (ex : exception) : error_kind :=
  match ex with
  | IllegalMoveException => IllegalMove
  | PlayerNotFoundException => PlayerNotFound
  | TooFewPlayersException => TooFewPlayers
  end.

(** ** Boards used below *)

(** a list of commands, run until one does not return *)
Fixpoint run_commands (NDEBUG : bool) (cs : list command) : M unit :=
  match cs with
  | [] => M_ret tt
  | c :: rest => _ <~ run_command NDEBUG c ;; run_commands NDEBUG rest
  end.

(** the board after [QuoridorInit( { "A", "B" } )] *)
Definition two_players : QuoridorEngine_t :=
  snd (QuoridorInit ["A"; "B"]%string new_engine).

(** the board after [QuoridorInit( { "A", "B", "C", "D" } )] *)
Definition four_players : QuoridorEngine_t :=
  snd (QuoridorInit ["A"; "B"; "C"; "D"]%string new_engine).

(** "B" has walked along row 4 until it stands next to "A" *)
Definition face_to_face : QuoridorEngine_t :=
  snd (run_commands false
         [DoQuoridorInit ["A"; "B"]%string;
          DoMovePlayer "B" (mkPos 7 4); DoMovePlayer "B" (mkPos 6 4);
          DoMovePlayer "B" (mkPos 5 4); DoMovePlayer "B" (mkPos 4 4);
          DoMovePlayer "B" (mkPos 3 4); DoMovePlayer "B" (mkPos 2 4);
          DoMovePlayer "B" (mkPos 1 4)] new_engine).

(** two players and one horizontal wall at slot (0, 4) *)
Definition one_horizontal_wall : QuoridorEngine_t :=
  snd (run_commands false
         [DoQuoridorInit ["A"; "B"]%string;
          DoAddWall (WallPiece.mk (mkPos 0 4) false)] new_engine).

(** a wall outside the slots of the board: no wall is added *)
Definition no_wall : WallPiece_t := WallPiece.mk (mkPos (-1) (-1)) false.

(** ** The specification's wall geometry *)

(** Section 4.2 of the specification: the walls that separate two adjacent
    cells are the walls perpendicular to the step, at the lower of the two
    coordinates or one slot before it along the wall's own axis.  A step
    along y (same x) is cut by horizontal walls, a step along x by vertical
    walls.  This is the reading of the specification, to be compared with
    [IsWallBetweenAdjPos], which takes the axis of the step from
    [y_min != 0]. *)
Definition spec_wall_crosses_edge (wall : WallPiece_t) (a b : Pos_t) : bool :=
  let x_min := Z.min (x a) (x b) in
  let y_min := Z.min (y a) (y b) in
  if x a =? x b then
    negb (WallPiece.vertical wall) &&
    (Pos_eqb (WallPiece.pos wall) (mkPos x_min y_min) ||
     Pos_eqb (WallPiece.pos wall) (mkPos (x_min - 1) y_min))
  else
    WallPiece.vertical wall &&
    (Pos_eqb (WallPiece.pos wall) (mkPos x_min y_min) ||
     Pos_eqb (WallPiece.pos wall) (mkPos x_min (y_min - 1))).

(** no placed wall crosses the edge between [a] and [b] *)
Definition spec_edge_open (e : QuoridorEngine_t) (a b : Pos_t) : bool :=
  negb (existsb (fun wall => spec_wall_crosses_edge wall a b) (m_walls_on_board e)).


(** Manhattan distance of two positions *)
Definition manhattan (a b : Pos_t) : Z := Z.abs (x b - x a) + Z.abs (y b - y a).

(** the cell between two cells at distance 2 on a row or a column *)
Definition midpoint (a b : Pos_t) : Pos_t :=
  mkPos ((x a + x b) / 2) ((y a + y b) / 2).

(** ** Walls that exclude each other *)

(** The three tests of [CheckAddWall] against the walls on the board, read
    as a relation between the new wall [a] and a placed wall [b]: the same
    slot (either orientation), or the same orientation one slot further or
    nearer along the wall's own axis. *)
Definition wall_conflict (a b : WallPiece_t) : bool :=
  let vertical := WallPiece.vertical a in
  Pos_eqb (WallPiece.pos b) (WallPiece.pos a)
  || (Bool.eqb (WallPiece.vertical b) vertical
      && (Pos_eqb (WallPiece.pos b)
                  (mkPos (x (WallPiece.pos a) + Z.b2z (negb vertical))
                         (y (WallPiece.pos a) + Z.b2z vertical))
          || Pos_eqb (WallPiece.pos b)
                     (mkPos (x (WallPiece.pos a) - Z.b2z (negb vertical))
                            (y (WallPiece.pos a) - Z.b2z vertical)))).

(** a set of walls on slots of the board, without repetition, no two of
    which exclude each other *)
Definition walls_apart (s : WallSet) : Prop :=
  NoDup s
  /\ Forall (fun wall => IsWallLegal wall = true) s
  /\ forall a b, In a s -> In b s -> a <> b -> wall_conflict a b = false.

(** The wall set of the engine and the wall list of the board hold the
    same walls, and the walls are apart. (The list that stands for the set
    keeps the order of insertion; the properties stated of the engine speak
    of membership only.) *)
Definition walls_in_order (e : QuoridorEngine_t) : Prop :=
  m_walls_on_board e = walls (m_board e) /\ walls_apart (m_walls_on_board e).

(** * Properties *)

(** ** Machine integers *)

Lemma to_int8_small (z : Z) : -128 <= z < 128 -> to_int8 z = z.
Proof.
  intros Hz. unfold to_int8. rewrite Z.mod_small; lia.
Qed.

Lemma to_int_small (z : Z) : -2147483648 <= z <= INT_MAX -> to_int z = z.
Proof.
  unfold INT_MAX. intros Hz. unfold to_int. rewrite Z.mod_small; lia.
Qed.

(** ** Rejections write nothing *)

Ltac step_result :=
  match goal with
  | |- context [match ?c with Val _ => _ | Throw _ => _ | Abort => _ | Undefined => _ end] =>
      destruct c eqn:?
  | |- context [if ?b then _ else _] => destruct b eqn:?
  end.

Lemma MovePlayer_throw (NDEBUG : bool) (player_name : string) (new_pos : Pos_t)
  (e e' : QuoridorEngine_t) (ex : exception) :
  MovePlayer NDEBUG player_name new_pos e = (Throw ex, e') -> e' = e.
Proof.
  unfold MovePlayer, M_bind, read, throw, modify.
  repeat (step_result; simpl); intros H; inversion H; reflexivity.
Qed.

Lemma AddWall_throw (wall : WallPiece_t) (e e' : QuoridorEngine_t) (ex : exception) :
  AddWall wall e = (Throw ex, e') -> e' = e.
Proof.
  unfold AddWall, M_bind, read, throw, modify.
  destruct (CheckAddWall e wall); simpl; intros H; inversion H; reflexivity.
Qed.

Lemma push_player_cases (player_names : list string) (i : Z) (e : QuoridorEngine_t) :
  (exists start player_name,
      push_player player_names i e
      = (Val tt, set_players e (players (m_board e) ++
                                [PlayerPiece.mk start player_name])))
  \/ push_player player_names i e = (Undefined, e).
Proof.
  unfold push_player, M_bind, read, modify, player_positions_at, player_names_at.
  destruct (i <? 0); [right; reflexivity|].
  destruct (nth_error player_positions (Z.to_nat i)) as [start|]; [|right; reflexivity].
  destruct (nth_error player_names (Z.to_nat i)) as [player_name|]; [|right; reflexivity].
  left. exists start, player_name. reflexivity.
Qed.

(** The loop of [QuoridorInit] does not throw. *)
Lemma QuoridorInit_loop_no_throw (player_names : list string) (count : nat) :
  forall (i : Z) (e e' : QuoridorEngine_t) (ex : exception),
    for_loop count i (push_player player_names) e <> (Throw ex, e').
Proof.
  induction count as [|count IH]; intros i e e' ex; simpl.
  - unfold M_ret. discriminate.
  - unfold M_bind.
    destruct (push_player_cases player_names i e) as [(start & player_name & ->) | ->].
    + apply IH.
    + discriminate.
Qed.

Lemma QuoridorInit_throw (player_names : list string) (e e' : QuoridorEngine_t)
  (ex : exception) :
  QuoridorInit player_names e = (Throw ex, e') -> e' = e.
Proof.
  unfold QuoridorInit.
  destruct (to_int (Z.of_nat (List.length player_names)) <? 2).
  - unfold throw. intros H; inversion H; reflexivity.
  - intros H. exfalso. exact (QuoridorInit_loop_no_throw _ _ _ _ _ _ H).
Qed.

(** C7. When [MovePlayer], [AddWall] or [QuoridorInit] throws, the engine
    (players, walls, wall set and current player) is the engine the command
    was called on: nothing is written before a [throw]. *)
Theorem rejection_leaves_engine_unchanged (NDEBUG : bool) (c : command)
  (e e' : QuoridorEngine_t) (ex : exception) :
  run_command NDEBUG c e = (Throw ex, e') -> e' = e.
Proof.
  destruct c as [player_name new_pos | wall | player_names]; simpl.
  - apply MovePlayer_throw.
  - apply AddWall_throw.
  - apply QuoridorInit_throw.
Qed.

Lemma rejection_leaves_engine_unchanged_witness :
  run_command false (DoMovePlayer "A" (mkPos 9 4)) two_players
  = (Throw IllegalMoveException, two_players)
  /\ snd (run_command false (DoMovePlayer "A" (mkPos 9 4)) two_players) = two_players.
Proof.
  split.
  - reflexivity.
  - apply (rejection_leaves_engine_unchanged false (DoMovePlayer "A" (mkPos 9 4))
             two_players _ IllegalMoveException).
    reflexivity.
Defined.

(** ** The current player *)

Lemma MovePlayer_current_player (NDEBUG : bool) (player_name : string) (new_pos : Pos_t)
  (e : QuoridorEngine_t) :
  m_current_player (snd (MovePlayer NDEBUG player_name new_pos e)) = m_current_player e.
Proof.
  unfold MovePlayer, M_bind, read, throw, modify.
  repeat (step_result; simpl); reflexivity.
Qed.

Lemma AddWall_current_player (wall : WallPiece_t) (e : QuoridorEngine_t) :
  m_current_player (snd (AddWall wall e)) = m_current_player e.
Proof.
  unfold AddWall, M_bind, read, throw, modify.
  destruct (CheckAddWall e wall); reflexivity.
Qed.

Lemma QuoridorInit_loop_current_player (player_names : list string) (count : nat) :
  forall (i : Z) (e : QuoridorEngine_t),
    m_current_player (snd (for_loop count i (push_player player_names) e))
    = m_current_player e.
Proof.
  induction count as [|count IH]; intros i e; simpl.
  - reflexivity.
  - unfold M_bind.
    destruct (push_player_cases player_names i e) as [(start & player_name & ->) | ->].
    + rewrite IH. reflexivity.
    + reflexivity.
Qed.

Lemma QuoridorInit_current_player (player_names : list string) (e : QuoridorEngine_t) :
  m_current_player (snd (QuoridorInit player_names e)) = m_current_player e.
Proof.
  unfold QuoridorInit.
  destruct (to_int (Z.of_nat (List.length player_names)) <? 2).
  - reflexivity.
  - apply QuoridorInit_loop_current_player.
Qed.

(** C10. [MovePlayer] and [AddWall] (and [QuoridorInit]) leave
    [m_current_player] as it was, whether they return, throw or abort: the
    index moves only in [NextTurn], which no command calls. *)
Theorem commands_keep_current_player (NDEBUG : bool) (c : command) (e : QuoridorEngine_t) :
  GetCurrentPlayer (snd (run_command NDEBUG c e)) = GetCurrentPlayer e.
Proof.
  unfold GetCurrentPlayer.
  destruct c as [player_name new_pos | wall | player_names]; simpl.
  - apply MovePlayer_current_player.
  - apply AddWall_current_player.
  - apply QuoridorInit_current_player.
Qed.

(** ** The kind of a rejected wall *)

(** C6, as stated, fails: a wall outside the slots of the board is refused
    by [CheckAddWall], and [AddWall] throws [IllegalMoveException], whose
    kind is [IllegalMove] and not [IllegalWallPlacement]. *)
Lemma AddWall_rejection_is_not_IllegalWallPlacement :
  CheckAddWall two_players (WallPiece.mk (mkPos 8 0) true) = false
  /\ fst (AddWall (WallPiece.mk (mkPos 8 0) true) two_players) = Throw IllegalMoveException
  /\ error_kind_of IllegalMoveException <> IllegalWallPlacement
  /\ fst (AddWall (WallPiece.mk (mkPos 8 0) true) two_players)
     = fst (MovePlayer false "A" (mkPos 9 4) two_players).
Proof.
  repeat split; try reflexivity. discriminate.
Qed.

(** C6, amended. A wall that [CheckAddWall] refuses makes [AddWall] throw
    [IllegalMoveException], the class that [MovePlayer] throws for an
    illegal move, and the engine is left as it was. *)
Theorem AddWall_rejects_with_IllegalMoveException (e : QuoridorEngine_t)
  (wall : WallPiece_t) :
  CheckAddWall e wall = false ->
  AddWall wall e = (Throw IllegalMoveException, e)
  /\ error_kind_of IllegalMoveException = IllegalMove.
Proof.
  intros Hcheck. unfold AddWall, M_bind, read, throw.
  rewrite Hcheck. split; reflexivity.
Qed.

Lemma AddWall_rejects_with_IllegalMoveException_witness :
  CheckAddWall one_horizontal_wall (WallPiece.mk (mkPos 0 4) true) = false
  /\ AddWall (WallPiece.mk (mkPos 0 4) true) one_horizontal_wall
     = (Throw IllegalMoveException, one_horizontal_wall).
Proof.
  split.
  - reflexivity.
  - apply (AddWall_rejects_with_IllegalMoveException one_horizontal_wall
             (WallPiece.mk (mkPos 0 4) true)).
    reflexivity.
Defined.

(** ** Turns *)

Lemma set_current_player_same (e : QuoridorEngine_t) :
  set_current_player e (m_current_player e) = e.
Proof.
  destruct e; reflexivity.
Qed.

(** One [NextTurn] inside the roster: the index goes up by one, and from
    the last player back to 0. *)
Lemma NextTurn_step (e : QuoridorEngine_t) :
  let n := Z.of_nat (List.length (players (m_board e))) in
  n <= INT_MAX ->
  0 <= m_current_player e < n ->
  NextTurn e = (Val tt, set_current_player e ((m_current_player e + 1) mod n)).
Proof.
  intros n Hn Hcur. unfold NextTurn, M_bind, read, modify. fold n.
  rewrite (to_int_small n) by (unfold INT_MAX in *; lia).
  destruct (Z.eqb_spec (m_current_player e) INT_MAX) as [Hmax|_]; [lia|].
  simpl. f_equal. unfold set_current_player. simpl. f_equal.
  destruct (Z.eqb_spec (m_current_player e + 1) n) as [Heq|Hne].
  - rewrite Heq, Z.mod_same by lia. reflexivity.
  - rewrite Z.mod_small by lia. reflexivity.
Qed.

Lemma NextTurn_iterated (k : nat) :
  forall (e : QuoridorEngine_t),
    let n := Z.of_nat (List.length (players (m_board e))) in
    n <= INT_MAX ->
    0 <= m_current_player e < n ->
    repeat_command k NextTurn e
    = (Val tt, set_current_player e ((m_current_player e + Z.of_nat k) mod n)).
Proof.
  induction k as [|k IH]; intros e n Hn Hcur.
  - simpl. unfold M_ret. rewrite Z.add_0_r, Z.mod_small by lia.
    rewrite set_current_player_same. reflexivity.
  - cbn [repeat_command]. unfold M_bind.
    rewrite NextTurn_step by assumption. fold n.
    assert (Hmod : 0 <= (m_current_player e + 1) mod n < n)
      by (apply Z.mod_pos_bound; lia).
    rewrite IH; cbn [set_current_player m_board m_current_player m_walls_on_board];
      fold n; try assumption.
    rewrite Zplus_mod_idemp_l.
    replace (m_current_player e + 1 + Z.of_nat k)
      with (m_current_player e + Z.of_nat (S k)) by lia.
    reflexivity.
Qed.

(** C8. With [n >= 1] players and the current player in [0, n), [n] calls
    of [NextTurn] return and leave the engine, and so the current player, as
    they were.  [n] is a number that the [int players_count] can hold. *)
Theorem NextTurn_full_round (e : QuoridorEngine_t) :
  let n := List.length (players (m_board e)) in
  (1 <= n)%nat ->
  Z.of_nat n <= INT_MAX ->
  0 <= GetCurrentPlayer e < Z.of_nat n ->
  repeat_command n NextTurn e = (Val tt, e)
  /\ GetCurrentPlayer (snd (repeat_command n NextTurn e)) = GetCurrentPlayer e.
Proof.
  intros n Hpos Hmax Hcur. unfold GetCurrentPlayer in *.
  assert (Hround : repeat_command n NextTurn e = (Val tt, e)).
  { rewrite NextTurn_iterated by assumption. fold n.
    replace ((m_current_player e + Z.of_nat n) mod Z.of_nat n)
      with (m_current_player e).
    - rewrite set_current_player_same. reflexivity.
    - rewrite <- (Z.mul_1_l (Z.of_nat n)) at 1.
      rewrite Z.mod_add by lia. rewrite Z.mod_small by lia. reflexivity. }
  split; [exact Hround | rewrite Hround; reflexivity].
Qed.

Lemma NextTurn_full_round_witness :
  repeat_command 4 NextTurn (set_current_player four_players 2)
  = (Val tt, set_current_player four_players 2).
Proof.
  apply (NextTurn_full_round (set_current_player four_players 2));
    simpl; unfold INT_MAX, GetCurrentPlayer; simpl; lia.
Defined.

(** ** The roster *)

(** C9. [QuoridorInit] on [k] names: with [k < 2] it throws
    [TooFewPlayersException] and writes nothing; with [k = 2] or [k = 3] it
    returns and has appended two pieces, the first two names at (0, 4) and
    (8, 4); with [k >= 4] it returns and has appended four pieces, the first
    four names at (0, 4), (8, 4), (4, 0) and (4, 8).  The names beyond are
    not read.  [k] is a number that the [int player_names_size] can hold. *)
Theorem QuoridorInit_roster (e : QuoridorEngine_t) (player_names : list string) :
  Z.of_nat (List.length player_names) <= INT_MAX ->
  match player_names with
  | [] | [_] =>
      QuoridorInit player_names e = (Throw TooFewPlayersException, e)
  | [n0; n1] | [n0; n1; _] =>
      QuoridorInit player_names e
      = (Val tt, set_players e (players (m_board e) ++
                                [PlayerPiece.mk (mkPos 0 4) n0;
                                 PlayerPiece.mk (mkPos 8 4) n1]))
  | n0 :: n1 :: n2 :: n3 :: _ =>
      QuoridorInit player_names e
      = (Val tt, set_players e (players (m_board e) ++
                                [PlayerPiece.mk (mkPos 0 4) n0;
                                 PlayerPiece.mk (mkPos 8 4) n1;
                                 PlayerPiece.mk (mkPos 4 0) n2;
                                 PlayerPiece.mk (mkPos 4 8) n3]))
  end.
Proof.
  intros Hmax.
  destruct player_names as [|n0 [|n1 [|n2 [|n3 surplus]]]];
    try reflexivity.
  - (* two names *)
    unfold QuoridorInit. simpl. unfold M_bind, M_ret. simpl.
    rewrite <- app_assoc. reflexivity.
  - (* three names *)
    unfold QuoridorInit. simpl. unfold M_bind, M_ret. simpl.
    rewrite <- app_assoc. reflexivity.
  - (* four names or more *)
    unfold QuoridorInit.
    rewrite to_int_small by (unfold INT_MAX in *; lia).
    destruct (Z.ltb_spec (Z.of_nat (List.length (n0 :: n1 :: n2 :: n3 :: surplus))) 2)
      as [Hlt|_]; [cbn [List.length] in Hlt; lia|].
    destruct (Z.geb_spec (Z.of_nat (List.length (n0 :: n1 :: n2 :: n3 :: surplus))) 4)
      as [_|Hlt]; [|cbn [List.length] in Hlt; lia].
    change (Z.to_nat 4) with 4%nat.
    cbn [for_loop]. unfold M_bind, M_ret, push_player, M_bind, read, modify. simpl.
    rewrite <- !app_assoc. reflexivity.
Qed.

Lemma QuoridorInit_roster_witness :
  QuoridorInit ["A"; "B"; "C"; "D"; "E"]%string new_engine
  = (Val tt, four_players).
Proof.
  apply (QuoridorInit_roster new_engine ["A"; "B"; "C"; "D"; "E"]%string).
  unfold INT_MAX. simpl. lia.
Defined.

(** ** Goal positions *)

Lemma GetGoalPosForPlayerIndex_outside (player_index : Z) :
  player_index < 0 \/ 4 < player_index ->
  GetGoalPosForPlayerIndex player_index = Val [].
Proof.
  intros Hout. unfold GetGoalPosForPlayerIndex.
  destruct (Z.ltb_spec player_index 0); [reflexivity|].
  destruct (Z.gtb_spec player_index 4); [reflexivity|lia].
Qed.

(** The first two players, who start on the columns x = 0 and x = 8, get
    the column on the other side. *)
Lemma GetGoalPosForPlayerIndex_columns :
  GetGoalPosForPlayerIndex 0 = Val (map (fun j => mkPos 8 j) [0; 1; 2; 3; 4; 5; 6; 7; 8])
  /\ GetGoalPosForPlayerIndex 1 = Val (map (fun j => mkPos 0 j) [0; 1; 2; 3; 4; 5; 6; 7; 8]).
Proof.
  split; reflexivity.
Qed.

(** C5 fails on the code at three indices.  Index 4 passes the guard
    [player_index > 4] and reads [player_positions[4]], past the end of the
    array, where the claim has the empty set.  Players 2 and 3 start at
    (4, 0) and (4, 8), on the rows y = 0 and y = 8, and both get the middle
    row y = 4 (the far coordinate is computed from [x], which is 4), where
    the claim has the rows y = 8 and y = 0. *)
Theorem GetGoalPosForPlayerIndex_defects :
  GetGoalPosForPlayerIndex 4 = Undefined
  /\ GetGoalPosForPlayerIndex 4 <> Val []
  /\ player_positions_at 2 = Val (mkPos 4 0)
  /\ GetGoalPosForPlayerIndex 2 = Val (map (fun j => mkPos j 4) [0; 1; 2; 3; 4; 5; 6; 7; 8])
  /\ player_positions_at 3 = Val (mkPos 4 8)
  /\ GetGoalPosForPlayerIndex 3 = Val (map (fun j => mkPos j 4) [0; 1; 2; 3; 4; 5; 6; 7; 8]).
Proof.
  repeat split; try reflexivity. discriminate.
Qed.

(** ** Moves *)

Lemma IsPosLegal_bounds (pos : Pos_t) :
  IsPosLegal pos = true <-> 0 <= x pos <= 8 /\ 0 <= y pos <= 8.
Proof.
  unfold IsPosLegal, m_board_side_length.
  rewrite !andb_true_iff, !Z.geb_le, !Z.ltb_lt. lia.
Qed.

Lemma IsWallLegal_bounds (wall : WallPiece_t) :
  IsWallLegal wall = true
  <-> 0 <= x (WallPiece.pos wall) <= 7 /\ 0 <= y (WallPiece.pos wall) <= 7.
Proof.
  unfold IsWallLegal, m_wall_pos_per_side, m_board_side_length.
  cbv zeta. rewrite !andb_true_iff, !Z.geb_le, !Z.ltb_lt. lia.
Qed.

(** The differences that [CheckMove] computes are the exact ones when the
    target is on the board and within distance 2. *)
Lemma CheckMove_diffs (cur_pos new_pos : Pos_t) :
  IsPosLegal new_pos = true ->
  manhattan cur_pos new_pos <= 2 ->
  to_int8 (x new_pos - x cur_pos) = x new_pos - x cur_pos
  /\ to_int8 (y new_pos - y cur_pos) = y new_pos - y cur_pos
  /\ to_int8 (Z.abs (x new_pos - x cur_pos) + Z.abs (y new_pos - y cur_pos))
     = manhattan cur_pos new_pos.
Proof.
  intros Hlegal Hdist. apply IsPosLegal_bounds in Hlegal.
  unfold manhattan in *. repeat split; apply to_int8_small; lia.
Qed.

(** With the target on the board, free and at distance 1, [CheckMove]
    returns the negation of what [IsWallBetweenAdjPos] returns, and the
    assertion of the helper holds. *)
Lemma CheckMove_adjacent (NDEBUG : bool) (e : QuoridorEngine_t) (cur_pos new_pos : Pos_t) :
  IsPosLegal new_pos = true ->
  IsPosFree e new_pos = true ->
  manhattan cur_pos new_pos = 1 ->
  exists wall_between : bool,
    IsWallBetweenAdjPos NDEBUG e cur_pos new_pos = Val wall_between
    /\ CheckMove NDEBUG e cur_pos new_pos = Val (negb wall_between).
Proof.
  intros Hlegal Hfree Hdist.
  destruct (CheckMove_diffs cur_pos new_pos Hlegal ltac:(lia)) as (Hx & Hy & Hd).
  unfold CheckMove. rewrite Hlegal, Hfree. cbv zeta. rewrite Hx, Hy, Hd, Hdist.
  cbn [negb Z.eqb Z.gtb Z.compare Pos.compare Pos.compare_cont orb].
  unfold IsWallBetweenAdjPos, assert. fold (manhattan cur_pos new_pos). rewrite Hdist.
  cbn [Z.eqb Pos.eqb result_bind].
  match goal with
  | |- context [if ?c then Val true else Val ?w] =>
      destruct c; [exists true | exists w; destruct w]; split; reflexivity
  end.
Qed.

(** X25. With the target on the board, free and at distance 2, the call that
    [CheckMove] makes to [IsWallBetweenAdjPos] fails the assertion of the
    helper: with assertions compiled in, [CheckMove] aborts. *)
Lemma CheckMove_distance_2_aborts (e : QuoridorEngine_t) (cur_pos new_pos : Pos_t) :
  IsPosLegal new_pos = true ->
  IsPosFree e new_pos = true ->
  manhattan cur_pos new_pos = 2 ->
  CheckMove false e cur_pos new_pos = Abort.
Proof.
  intros Hlegal Hfree Hdist.
  destruct (CheckMove_diffs cur_pos new_pos Hlegal ltac:(lia)) as (Hx & Hy & Hd).
  unfold CheckMove. rewrite Hlegal, Hfree. cbv zeta. rewrite Hx, Hy, Hd, Hdist.
  cbn [negb Z.eqb Z.gtb Z.compare Pos.compare Pos.compare_cont orb].
  unfold IsWallBetweenAdjPos, assert. fold (manhattan cur_pos new_pos). rewrite Hdist.
  reflexivity.
Qed.

Lemma half_step (a b : Z) :
  0 <= b <= 8 ->
  b - a = 0 \/ b - a = 2 \/ b - a = -2 ->
  to_int8 (a + Z.quot (b - a) 2) = (a + b) / 2.
Proof.
  intros Hb Hstep.
  rewrite to_int8_small; Z.to_euclidean_division_equations; lia.
Qed.

Lemma pos_jump_over_is_midpoint (cur_pos new_pos : Pos_t) :
  IsPosLegal new_pos = true ->
  manhattan cur_pos new_pos = 2 ->
  x cur_pos = x new_pos \/ y cur_pos = y new_pos ->
  mkPos (to_int8 (x cur_pos + Z.quot (x new_pos - x cur_pos) 2))
        (to_int8 (y cur_pos + Z.quot (y new_pos - y cur_pos) 2))
  = midpoint cur_pos new_pos
  /\ (Z.abs (y new_pos - y cur_pos) =? 2) || (Z.abs (x new_pos - x cur_pos) =? 2) = true.
Proof.
  intros Hlegal Hdist Haxis. apply IsPosLegal_bounds in Hlegal.
  unfold manhattan in Hdist. unfold midpoint. split.
  - rewrite !half_step by lia. reflexivity.
  - apply orb_true_iff. rewrite !Z.eqb_eq. lia.
Qed.

(** X24. The straight jump in a build without assertions: with the target on
    the board, free, two cells away on a row or a column, a piece on the
    cell between, and the wall check of the pair ([cur_pos], [new_pos])
    passed, [CheckMove] returns what [IsWallBetweenAdjPos] returns for the
    cell between and the target: [true] when there IS a wall, [false] when
    there is none. *)
Lemma CheckMove_straight_jump (e : QuoridorEngine_t) (cur_pos new_pos : Pos_t) :
  IsPosLegal new_pos = true ->
  IsPosFree e new_pos = true ->
  manhattan cur_pos new_pos = 2 ->
  x cur_pos = x new_pos \/ y cur_pos = y new_pos ->
  IsPosFree e (midpoint cur_pos new_pos) = false ->
  IsWallBetweenAdjPos true e cur_pos new_pos = Val false ->
  CheckMove true e cur_pos new_pos
  = IsWallBetweenAdjPos true e (midpoint cur_pos new_pos) new_pos.
Proof.
  intros Hlegal Hfree Hdist Haxis Hmid Hwall.
  destruct (CheckMove_diffs cur_pos new_pos Hlegal ltac:(lia)) as (Hx & Hy & Hd).
  destruct (pos_jump_over_is_midpoint cur_pos new_pos Hlegal Hdist Haxis) as [Hjump Hstraight].
  unfold CheckMove. rewrite Hlegal, Hfree. cbv zeta. rewrite Hx, Hy, Hd, Hdist, Hwall.
  cbn [negb Z.eqb Z.gtb Z.compare Pos.compare Pos.compare_cont orb result_bind Pos.eqb].
  rewrite Hstraight, Hjump, Hmid. reflexivity.
Qed.

(** C1 fails on the code. "A" stands at (0, 4), "B" next to it at (1, 4),
    there is no wall, and the target (2, 4) is on the board, free, two cells
    away on the row, with "B" on the cell between; the helper finds no wall
    between (1, 4) and (2, 4).  Without assertions the wall check of the
    pair passes and [CheckMove] answers [false], where the claim has [true];
    with assertions it aborts. *)
Theorem CheckMove_straight_jump_over_piece_rejected :
  IsPosLegal (mkPos 2 4) = true
  /\ IsPosFree face_to_face (mkPos 2 4) = true
  /\ manhattan (mkPos 0 4) (mkPos 2 4) = 2
  /\ IsPosFree face_to_face (midpoint (mkPos 0 4) (mkPos 2 4)) = false
  /\ IsWallBetweenAdjPos true face_to_face (mkPos 0 4) (mkPos 2 4) = Val false
  /\ IsWallBetweenAdjPos true face_to_face (midpoint (mkPos 0 4) (mkPos 2 4)) (mkPos 2 4)
     = Val false
  /\ CheckMove true face_to_face (mkPos 0 4) (mkPos 2 4) = Val false
  /\ CheckMove false face_to_face (mkPos 0 4) (mkPos 2 4) = Abort.
Proof.
  repeat split; reflexivity.
Qed.

(** The diagonal branch makes a second call of that kind: the cell
    [pos_straight_jump_to] is [2 * cur_pos - pos_jump_over], on the other
    side of [cur_pos], two cells from [pos_jump_over]. *)
Lemma diagonal_elbow_distance_2 (e : QuoridorEngine_t) (cur_pos new_pos pos_jump_over : Pos_t) :
  IsPosLegal cur_pos = true ->
  manhattan cur_pos pos_jump_over = 1 ->
  IsPosFree e pos_jump_over = false ->
  manhattan pos_jump_over
            (mkPos (to_int8 (2 * x cur_pos - x pos_jump_over))
                   (to_int8 (2 * y cur_pos - y pos_jump_over))) = 2
  /\ diagonal_elbow false e cur_pos new_pos pos_jump_over = Abort.
Proof.
  intros Hlegal Hdist Hfree. apply IsPosLegal_bounds in Hlegal.
  unfold manhattan in Hdist.
  assert (Hfar : manhattan pos_jump_over
                   (mkPos (to_int8 (2 * x cur_pos - x pos_jump_over))
                          (to_int8 (2 * y cur_pos - y pos_jump_over))) = 2).
  { unfold manhattan. cbn [x y]. rewrite !to_int8_small by lia. lia. }
  split; [exact Hfar|].
  unfold diagonal_elbow. cbv zeta. rewrite Hfree.
  unfold IsWallBetweenAdjPos at 1. unfold assert.
  unfold manhattan in Hfar. rewrite Hfar. reflexivity.
Qed.

(** C4 fails on the code. On the board of two players, [CheckMove] from
    (0, 4) to the free cell (2, 4) calls [IsWallBetweenAdjPos] on the two
    positions, which are at distance 2: the assertion of the helper fails
    and the call aborts. *)
Theorem CheckMove_breaks_helper_assertion :
  IsPosLegal (mkPos 2 4) = true
  /\ IsPosFree two_players (mkPos 2 4) = true
  /\ manhattan (mkPos 0 4) (mkPos 2 4) = 2
  /\ IsWallBetweenAdjPos false two_players (mkPos 0 4) (mkPos 2 4) = Abort
  /\ CheckMove false two_players (mkPos 0 4) (mkPos 2 4) = Abort
  /\ fst (MovePlayer false "A" (mkPos 2 4) two_players) = Abort.
Proof.
  repeat split; reflexivity.
Qed.


(** The helper takes the axis of a step from [y_min != 0]. After [AddWall]
    of a horizontal wall at slot (0, 4), the cell (1, 4) is next to (0, 4),
    on the board and free, and the only wall, which lies along the row, does
    not cross the edge between the two cells; yet the helper reports a wall,
    [CheckMove] answers [false] and [MovePlayer] throws. *)
Lemma CheckMove_adjacent_rejected_by_wall_elsewhere :
  m_walls_on_board one_horizontal_wall = [WallPiece.mk (mkPos 0 4) false]
  /\ IsPosLegal (mkPos 1 4) = true
  /\ IsPosFree one_horizontal_wall (mkPos 1 4) = true
  /\ manhattan (mkPos 0 4) (mkPos 1 4) = 1
  /\ spec_edge_open one_horizontal_wall (mkPos 0 4) (mkPos 1 4) = true
  /\ (forall NDEBUG,
        CheckMove NDEBUG one_horizontal_wall (mkPos 0 4) (mkPos 1 4) = Val false)
  /\ (forall NDEBUG,
        fst (MovePlayer NDEBUG "A" (mkPos 1 4) one_horizontal_wall)
        = Throw IllegalMoveException).
Proof.
  repeat split; try reflexivity; intros []; reflexivity.
Qed.

(** ** The path finder *)

(** C2 fails on the code. On the boards that [QuoridorInit] sets up for two
    and for four players, with no wall placed and a wall argument outside
    the slots of the board, [CheckWallBlocksPath] does not return [false]:
    for the first player it goes through the null pointer [reachable_pos],
    before the search begins, and the call is undefined. *)
Theorem CheckWallBlocksPath_start_is_undefined (NDEBUG : bool) (fuel : nat) :
  m_walls_on_board two_players = []
  /\ m_walls_on_board four_players = []
  /\ IsWallLegal no_wall = false
  /\ CheckWallBlocksPath NDEBUG fuel two_players no_wall = Some Undefined
  /\ CheckWallBlocksPath NDEBUG fuel four_players no_wall = Some Undefined
  /\ CheckWallBlocksPath NDEBUG fuel two_players no_wall <> Some (Val false)
  /\ CheckWallBlocksPath NDEBUG fuel four_players no_wall <> Some (Val false).
Proof.
  repeat split; try reflexivity; discriminate.
Qed.

(** ** Where the helper agrees with the specification's geometry *)






(** * Further properties of the engine *)

(** ** Positions *)

Lemma Pos_eqb_eq (a b : Pos_t) : Pos_eqb a b = true <-> a = b.
Proof.
  destruct a as [ax ay], b as [bx b_y]. unfold Pos_eqb. cbn [x y].
  rewrite andb_true_iff, !Z.eqb_eq. split.
  - intros [-> ->]. reflexivity.
  - intros H. inversion H. split; reflexivity.
Qed.

Lemma Pos_eqb_refl (a : Pos_t) : Pos_eqb a a = true.
Proof.
  apply Pos_eqb_eq. reflexivity.
Qed.

Lemma Pos_eqb_sym (a b : Pos_t) : Pos_eqb a b = Pos_eqb b a.
Proof.
  unfold Pos_eqb. rewrite (Z.eqb_sym (x a)), (Z.eqb_sym (y a)). reflexivity.
Qed.

Lemma Pos_eqb_neq (a b : Pos_t) : Pos_eqb a b = false <-> a <> b.
Proof.
  rewrite <- Pos_eqb_eq. destruct (Pos_eqb a b); split; congruence.
Qed.

Lemma to_int8_range (z : Z) : -128 <= to_int8 z < 128.
Proof.
  unfold to_int8. pose proof (Z.mod_pos_bound (z + 128) 256). lia.
Qed.

Lemma to_int8_add_sub (a b : Z) :
  -128 <= a < 128 -> to_int8 (to_int8 (a + b) - b) = a.
Proof.
  intros Ha. unfold to_int8.
  replace ((a + b + 128) mod 256 - 128 - b + 128) with ((a + b + 128) mod 256 - b) by lia.
  rewrite Zminus_mod_idemp_l.
  replace (a + b + 128 - b) with (a + 128) by lia.
  rewrite Z.mod_small; lia.
Qed.

(** X1. [operator-] undoes [operator+], wrap-around included: for a
    position whose coordinates are [int8_t] values, [(a + b) - b == a]. *)
Theorem Pos_add_sub_round_trip (a b : Pos_t) :
  -128 <= x a < 128 ->
  -128 <= y a < 128 ->
  Pos_sub (Pos_add a b) b = a /\ Pos_eqb (Pos_sub (Pos_add a b) b) a = true.
Proof.
  intros Hx Hy.
  assert (Hback : Pos_sub (Pos_add a b) b = a).
  { destruct a as [ax ay]. unfold Pos_sub, Pos_add. cbn [x y] in *.
    rewrite !to_int8_add_sub by assumption. reflexivity. }
  split; [exact Hback | rewrite Hback; apply Pos_eqb_refl].
Qed.

Lemma Pos_add_sub_round_trip_witness :
  Pos_sub (Pos_add (mkPos 127 (-128)) (mkPos 1 (-1))) (mkPos 1 (-1)) = mkPos 127 (-128)
  /\ Pos_add (mkPos 127 (-128)) (mkPos 1 (-1)) = mkPos (-128) 127.
Proof.
  split.
  - apply (Pos_add_sub_round_trip (mkPos 127 (-128)) (mkPos 1 (-1))); simpl; lia.
  - reflexivity.
Defined.

(** ** The wall helper *)

Lemma IsWallBetweenAdjPos_false_inv (NDEBUG : bool) (e : QuoridorEngine_t) (a b : Pos_t) :
  IsWallBetweenAdjPos NDEBUG e a b = Val false ->
  IsPosLegal a = true /\ IsPosLegal b = true /\ (NDEBUG = false -> manhattan a b = 1).
Proof.
  unfold IsWallBetweenAdjPos, assert. fold (manhattan a b).
  destruct (manhattan a b =? 1) eqn:Hone; destruct NDEBUG;
    cbn [result_bind]; try discriminate;
    destruct (IsPosLegal a), (IsPosLegal b); cbn [negb orb];
    try discriminate; intros _; repeat split;
    intros; try (apply Z.eqb_eq; assumption); discriminate.
Qed.

Lemma min_by_test_sym (u v : Z) :
  (if u <? v then u else v) = (if v <? u then v else u).
Proof.
  destruct (Z.ltb_spec u v), (Z.ltb_spec v u); lia.
Qed.

Lemma manhattan_sym (a b : Pos_t) : manhattan a b = manhattan b a.
Proof.
  unfold manhattan. lia.
Qed.

Lemma IsWallBetweenAdjPos_sym (NDEBUG : bool) (e : QuoridorEngine_t) (a b : Pos_t) :
  IsWallBetweenAdjPos NDEBUG e a b = IsWallBetweenAdjPos NDEBUG e b a.
Proof.
  unfold IsWallBetweenAdjPos. fold (manhattan a b) (manhattan b a).
  rewrite (manhattan_sym a b), (orb_comm (negb (IsPosLegal a))).
  rewrite (min_by_test_sym (x a)), (min_by_test_sym (y a)). reflexivity.
Qed.

Lemma IsWallBetweenAdjPos_wall_sym (NDEBUG : bool) (a b : Pos_t) (wall : WallPiece_t) :
  IsWallBetweenAdjPos_wall NDEBUG a b wall = IsWallBetweenAdjPos_wall NDEBUG b a wall.
Proof.
  unfold IsWallBetweenAdjPos_wall. fold (manhattan a b) (manhattan b a).
  rewrite (manhattan_sym a b), (orb_comm (negb (IsPosLegal a))).
  rewrite (min_by_test_sym (x a)), (min_by_test_sym (y a)). reflexivity.
Qed.

(** X2. Both wall helpers give the same answer for a pair of positions
    and for the pair reversed, assertion included. *)
Theorem wall_helpers_ignore_direction (NDEBUG : bool) (e : QuoridorEngine_t)
  (a b : Pos_t) (wall : WallPiece_t) :
  IsWallBetweenAdjPos NDEBUG e a b = IsWallBetweenAdjPos NDEBUG e b a
  /\ IsWallBetweenAdjPos_wall NDEBUG a b wall = IsWallBetweenAdjPos_wall NDEBUG b a wall.
Proof.
  split; [apply IsWallBetweenAdjPos_sym | apply IsWallBetweenAdjPos_wall_sym].
Qed.

(** X3. A step between two free cells of the board at distance 1 is
    accepted in one direction exactly when it is accepted in the other. *)
Theorem CheckMove_adjacent_reversible (NDEBUG : bool) (e : QuoridorEngine_t) (a b : Pos_t) :
  IsPosLegal a = true -> IsPosFree e a = true ->
  IsPosLegal b = true -> IsPosFree e b = true ->
  manhattan a b = 1 ->
  CheckMove NDEBUG e a b = CheckMove NDEBUG e b a.
Proof.
  intros Hla Hfa Hlb Hfb Hdist.
  destruct (CheckMove_adjacent NDEBUG e a b Hlb Hfb Hdist) as (w1 & Hw1 & ->).
  rewrite manhattan_sym in Hdist.
  destruct (CheckMove_adjacent NDEBUG e b a Hla Hfa Hdist) as (w2 & Hw2 & ->).
  rewrite IsWallBetweenAdjPos_sym, Hw2 in Hw1. inversion Hw1. reflexivity.
Qed.

Lemma CheckMove_adjacent_reversible_witness :
  CheckMove false one_horizontal_wall (mkPos 0 5) (mkPos 0 6)
  = CheckMove false one_horizontal_wall (mkPos 0 6) (mkPos 0 5).
Proof.
  apply (CheckMove_adjacent_reversible false one_horizontal_wall (mkPos 0 5) (mkPos 0 6));
    reflexivity.
Defined.

(** ** What [CheckMove] accepts *)

Lemma CheckMove_true_inv (NDEBUG : bool) (e : QuoridorEngine_t) (cur_pos new_pos : Pos_t) :
  CheckMove NDEBUG e cur_pos new_pos = Val true ->
  IsPosLegal cur_pos = true /\ IsPosLegal new_pos = true /\ IsPosFree e new_pos = true
  /\ 1 <= manhattan cur_pos new_pos <= 2
  /\ IsWallBetweenAdjPos NDEBUG e cur_pos new_pos = Val false.
Proof.
  unfold CheckMove.
  destruct (IsPosLegal new_pos) eqn:Hlegal; cbn [negb]; [|discriminate].
  destruct (IsPosFree e new_pos) eqn:Hfree; cbn [negb]; [|discriminate].
  cbv zeta.
  destruct ((to_int8 (Z.abs (to_int8 (x new_pos - x cur_pos))
                      + Z.abs (to_int8 (y new_pos - y cur_pos))) =? 0)
            || (to_int8 (Z.abs (to_int8 (x new_pos - x cur_pos))
                         + Z.abs (to_int8 (y new_pos - y cur_pos))) >? 2)) eqn:Hdiff;
    [discriminate|].
  destruct (IsWallBetweenAdjPos NDEBUG e cur_pos new_pos) as [[|]| | |] eqn:Hwall;
    cbn [result_bind]; try discriminate.
  intros _.
  destruct (IsWallBetweenAdjPos_false_inv NDEBUG e cur_pos new_pos Hwall) as (Hcur & _ & _).
  repeat split; try assumption; try reflexivity.
  all: apply IsPosLegal_bounds in Hcur, Hlegal; apply orb_false_iff in Hdiff;
    destruct Hdiff as [Hzero Hbig];
    rewrite !(to_int8_small (x new_pos - x cur_pos)) in Hzero, Hbig by lia;
    rewrite !(to_int8_small (y new_pos - y cur_pos)) in Hzero, Hbig by lia;
    rewrite to_int8_small in Hzero, Hbig by lia;
    apply Z.eqb_neq in Hzero; rewrite Z.gtb_ltb in Hbig; apply Z.ltb_ge in Hbig;
    unfold manhattan; lia.
Qed.

(** X4. Whatever the board, a move that [CheckMove] accepts starts on the
    board, ends on a cell of the board that no piece occupies, and goes one
    or two cells far. *)
Theorem CheckMove_accepts_only_short_moves_on_board (NDEBUG : bool) (e : QuoridorEngine_t)
  (cur_pos new_pos : Pos_t) :
  CheckMove NDEBUG e cur_pos new_pos = Val true ->
  IsPosLegal cur_pos = true /\ IsPosLegal new_pos = true /\ IsPosFree e new_pos = true
  /\ 1 <= manhattan cur_pos new_pos <= 2.
Proof.
  intros Haccept.
  destruct (CheckMove_true_inv NDEBUG e cur_pos new_pos Haccept)
    as (Hcur & Hnew & Hfree & Hdist & _).
  repeat split; try assumption; lia.
Qed.

Lemma CheckMove_accepts_only_short_moves_on_board_witness :
  IsPosLegal (mkPos 0 4) = true /\ IsPosLegal (mkPos 1 3) = true
  /\ IsPosFree face_to_face (mkPos 1 3) = true
  /\ 1 <= manhattan (mkPos 0 4) (mkPos 1 3) <= 2.
Proof.
  apply (CheckMove_accepts_only_short_moves_on_board true face_to_face (mkPos 0 4) (mkPos 1 3)).
  reflexivity.
Defined.

(** X5. In a build with assertions, the moves that [CheckMove] accepts are
    the steps to a neighbouring cell: no jump is ever accepted, a call for a
    free cell of the board two cells away aborts. *)
Theorem CheckMove_with_assertions_accepts_only_steps (e : QuoridorEngine_t)
  (cur_pos new_pos : Pos_t) :
  CheckMove false e cur_pos new_pos = Val true ->
  manhattan cur_pos new_pos = 1.
Proof.
  intros Haccept.
  destruct (CheckMove_true_inv false e cur_pos new_pos Haccept) as (_ & _ & _ & _ & Hwall).
  destruct (IsWallBetweenAdjPos_false_inv false e cur_pos new_pos Hwall) as (_ & _ & Hone).
  apply Hone. reflexivity.
Qed.

Lemma CheckMove_with_assertions_accepts_only_steps_witness :
  manhattan (mkPos 0 4) (mkPos 0 5) = 1.
Proof.
  apply (CheckMove_with_assertions_accepts_only_steps two_players (mkPos 0 4) (mkPos 0 5)).
  reflexivity.
Defined.

(** ** Looking a player up *)




(** ** Moving a piece *)

Lemma MovePlayer_cases (NDEBUG : bool) (player_name : string) (new_pos : Pos_t)
  (e : QuoridorEngine_t) :
  MovePlayer NDEBUG player_name new_pos e
  = match IsMovePossible NDEBUG e player_name new_pos with
    | Val true =>
        (Val tt, set_players e (assign_pos (players (m_board e))
                                           (findPlayer e player_name) new_pos))
    | Val false => (Throw IllegalMoveException, e)
    | Throw ex => (Throw ex, e)
    | Abort => (Abort, e)
    | Undefined => (Undefined, e)
    end.
Proof.
  unfold MovePlayer, IsMovePossible, M_bind, read, throw, modify.
  destruct (GetPlayerPos e player_name) as [player_pos| | |]; cbn [result_bind];
    try reflexivity.
  destruct (CheckMove NDEBUG e player_pos new_pos) as [[|]| | |]; reflexivity.
Qed.

(** X7. [MovePlayer] returns exactly when [IsMovePossible] answers [true];
    when it answers [false] the command throws [IllegalMoveException]; an
    exception or an abort of the query is the outcome of the command. *)
Theorem MovePlayer_agrees_with_IsMovePossible (NDEBUG : bool) (player_name : string)
  (new_pos : Pos_t) (e : QuoridorEngine_t) :
  fst (MovePlayer NDEBUG player_name new_pos e)
  = match IsMovePossible NDEBUG e player_name new_pos with
    | Val true => Val tt
    | Val false => Throw IllegalMoveException
    | Throw ex => Throw ex
    | Abort => Abort
    | Undefined => Undefined
    end.
Proof.
  rewrite MovePlayer_cases.
  destruct (IsMovePossible NDEBUG e player_name new_pos) as [[|]| | |]; reflexivity.
Qed.

Lemma assign_pos_names (players_list : PlayersList_t) (it : nat) (new_pos : Pos_t) :
  map PlayerPiece.name (assign_pos players_list it new_pos)
  = map PlayerPiece.name players_list.
Proof.
  revert it. induction players_list as [|first rest IH]; intros [|it];
    cbn [assign_pos map]; try reflexivity.
  rewrite IH. reflexivity.
Qed.

Lemma findPlayer_in_names (l1 l2 : PlayersList_t) (player_name : string) :
  map PlayerPiece.name l1 = map PlayerPiece.name l2 ->
  findPlayer_in l1 player_name = findPlayer_in l2 player_name.
Proof.
  revert l2. induction l1 as [|p1 l1 IH]; intros [|p2 l2] Hnames;
    cbn [map] in Hnames; try discriminate; [reflexivity|].
  inversion Hnames as [[Hname Hrest]]. cbn [findPlayer_in]. rewrite Hname.
  destruct (String.eqb (PlayerPiece.name p2) player_name);
    [reflexivity | f_equal; apply IH; exact Hrest].
Qed.

Lemma assign_pos_nth (players_list : PlayersList_t) (it : nat) (new_pos : Pos_t)
  (player_piece : PlayerPiece_t) :
  nth_error players_list it = Some player_piece ->
  nth_error (assign_pos players_list it new_pos) it
  = Some (PlayerPiece.mk new_pos (PlayerPiece.name player_piece)).
Proof.
  revert it. induction players_list as [|first rest IH]; intros [|it];
    cbn [assign_pos nth_error]; try discriminate.
  - intros H; inversion H. reflexivity.
  - apply IH.
Qed.

Lemma assign_pos_other (players_list : PlayersList_t) (it other : nat) (new_pos : Pos_t) :
  other <> it ->
  nth_error (assign_pos players_list it new_pos) other = nth_error players_list other.
Proof.
  revert it other. induction players_list as [|first rest IH]; intros [|it] [|other] Hne;
    cbn [assign_pos nth_error]; try reflexivity; try lia.
  apply IH. lia.
Qed.

(** X8. When [MovePlayer] returns, the named player is looked up at the
    new position, every other entry of the roster is the entry it was, the
    names and their order are kept, and the walls, the wall set and the
    current player are untouched. *)
Theorem MovePlayer_moves_one_piece (NDEBUG : bool) (player_name : string) (new_pos : Pos_t)
  (e e' : QuoridorEngine_t) :
  MovePlayer NDEBUG player_name new_pos e = (Val tt, e') ->
  GetPlayerPos e' player_name = Val new_pos
  /\ map PlayerPiece.name (players (m_board e')) = map PlayerPiece.name (players (m_board e))
  /\ (forall other, other <> findPlayer e player_name ->
        nth_error (players (m_board e')) other = nth_error (players (m_board e)) other)
  /\ walls (m_board e') = walls (m_board e)
  /\ m_walls_on_board e' = m_walls_on_board e
  /\ m_current_player e' = m_current_player e.
Proof.
  rewrite MovePlayer_cases. unfold IsMovePossible, GetPlayerPos.
  destruct (nth_error (players (m_board e)) (findPlayer e player_name))
    as [player_piece|] eqn:Hnth; cbn [result_bind]; [|discriminate].
  destruct (CheckMove NDEBUG e (PlayerPiece.pos player_piece) new_pos) as [[|]| | |];
    try discriminate.
  intros H; inversion H; subst e'; clear H.
  cbn [set_players m_board players walls m_walls_on_board m_current_player].
  repeat split; try reflexivity.
  - unfold GetPlayerPos. unfold findPlayer in *.
    cbn [set_players m_board players].
    rewrite (findPlayer_in_names
               (assign_pos (players (m_board e))
                           (findPlayer_in (players (m_board e)) player_name) new_pos)
               (players (m_board e)) player_name)
      by apply assign_pos_names.
    rewrite (assign_pos_nth _ _ _ _ Hnth). reflexivity.
  - apply assign_pos_names.
  - intros other Hother. apply assign_pos_other. exact Hother.
Qed.

Lemma MovePlayer_moves_one_piece_witness :
  GetPlayerPos (snd (MovePlayer false "B" (mkPos 8 5) two_players)) "B" = Val (mkPos 8 5).
Proof.
  apply (MovePlayer_moves_one_piece false "B" (mkPos 8 5) two_players
           (snd (MovePlayer false "B" (mkPos 8 5) two_players))).
  reflexivity.
Defined.

(** ** Pieces stay apart and on the board *)

Lemma IsPosFree_not_In (e : QuoridorEngine_t) (pos : Pos_t) :
  IsPosFree e pos = true <-> ~ In pos (map PlayerPiece.pos (players (m_board e))).
Proof.
  unfold IsPosFree. induction (players (m_board e)) as [|first rest IH];
    cbn [forallb map In].
  - split; [intros _ [] | reflexivity].
  - rewrite andb_true_iff, IH, negb_true_iff, Pos_eqb_neq. tauto.
Qed.

Lemma assign_pos_In (players_list : PlayersList_t) (it : nat) (new_pos q : Pos_t) :
  In q (map PlayerPiece.pos (assign_pos players_list it new_pos)) ->
  q = new_pos \/ In q (map PlayerPiece.pos players_list).
Proof.
  revert it. induction players_list as [|first rest IH]; intros [|it];
    cbn [assign_pos map In PlayerPiece.pos]; try tauto.
  - intros [<- | Hin]; [left; reflexivity | right; right; exact Hin].
  - intros [Hq | Hin]; [right; left; exact Hq|].
    destruct (IH it Hin) as [Hnew | Hold]; [left; exact Hnew | right; right; exact Hold].
Qed.

Lemma assign_pos_NoDup (players_list : PlayersList_t) (it : nat) (new_pos : Pos_t) :
  ~ In new_pos (map PlayerPiece.pos players_list) ->
  NoDup (map PlayerPiece.pos players_list) ->
  NoDup (map PlayerPiece.pos (assign_pos players_list it new_pos)).
Proof.
  revert it. induction players_list as [|first rest IH]; intros [|it] Hfree Hapart;
    cbn [assign_pos map PlayerPiece.pos] in *; try exact Hapart;
    inversion Hapart as [|? ? Hfirst Hrest]; subst; constructor.
  - intros Hin. apply Hfree. right. exact Hin.
  - exact Hrest.
  - intros Hin. destruct (assign_pos_In rest it new_pos _ Hin) as [Hnew | Hold].
    + apply Hfree. left. exact Hnew.
    + exact (Hfirst Hold).
  - apply IH; [intros Hin; apply Hfree; right; exact Hin | exact Hrest].
Qed.

Lemma assign_pos_Forall (P : Pos_t -> Prop) (players_list : PlayersList_t) (it : nat)
  (new_pos : Pos_t) :
  P new_pos ->
  Forall (fun player_piece => P (PlayerPiece.pos player_piece)) players_list ->
  Forall (fun player_piece => P (PlayerPiece.pos player_piece))
         (assign_pos players_list it new_pos).
Proof.
  intros Hnew. revert it. induction players_list as [|first rest IH]; intros [|it] Hall;
    cbn [assign_pos]; try exact Hall;
    inversion Hall as [|? ? Hfirst Hrest]; subst; constructor;
    cbn [PlayerPiece.pos]; try assumption.
  apply IH. exact Hrest.
Qed.

(** X9. If the pieces stand on pairwise different cells of the board, they
    still do after [MovePlayer], however the call ends: a move is accepted
    only onto a free cell of the board, and a refused move writes
    nothing. *)
Theorem MovePlayer_keeps_pieces_apart (NDEBUG : bool) (player_name : string)
  (new_pos : Pos_t) (e : QuoridorEngine_t) :
  NoDup (map PlayerPiece.pos (players (m_board e))) ->
  Forall (fun player_piece => IsPosLegal (PlayerPiece.pos player_piece) = true)
         (players (m_board e)) ->
  let e' := snd (MovePlayer NDEBUG player_name new_pos e) in
  NoDup (map PlayerPiece.pos (players (m_board e')))
  /\ Forall (fun player_piece => IsPosLegal (PlayerPiece.pos player_piece) = true)
            (players (m_board e')).
Proof.
  intros Hapart Hboard. cbv zeta. rewrite MovePlayer_cases.
  unfold IsMovePossible.
  destruct (GetPlayerPos e player_name) as [player_pos| | |]; cbn [result_bind snd];
    try (split; assumption).
  destruct (CheckMove NDEBUG e player_pos new_pos) as [[|]| | |] eqn:Hmove; cbn [snd];
    try (split; assumption).
  destruct (CheckMove_true_inv NDEBUG e player_pos new_pos Hmove)
    as (_ & Hlegal & Hfree & _).
  cbn [set_players m_board players]. split.
  - apply assign_pos_NoDup; [apply IsPosFree_not_In; exact Hfree | exact Hapart].
  - apply (assign_pos_Forall (fun pos => IsPosLegal pos = true)); assumption.
Qed.

Lemma MovePlayer_keeps_pieces_apart_witness :
  NoDup (map PlayerPiece.pos
             (players (m_board (snd (MovePlayer true "A" (mkPos 1 3) face_to_face))))).
Proof.
  apply (MovePlayer_keeps_pieces_apart true "A" (mkPos 1 3) face_to_face).
  - repeat constructor; simpl; intros H; repeat destruct H as [H|H]; try discriminate H;
      exact H.
  - repeat constructor.
Defined.

(** ** Placing walls *)

Lemma Wall_eqb_eq (a b : WallPiece_t) : Wall_eqb a b = true <-> a = b.
Proof.
  destruct a as [pa va], b as [pb vb]. unfold Wall_eqb. cbn [WallPiece.pos WallPiece.vertical].
  rewrite andb_true_iff, Pos_eqb_eq, Bool.eqb_true_iff. split.
  - intros [-> ->]. reflexivity.
  - intros H. inversion H. split; reflexivity.
Qed.

Lemma WallSet_mem_In (wall : WallPiece_t) (s : WallSet) :
  WallSet_mem wall s = true <-> In wall s.
Proof.
  unfold WallSet_mem. rewrite existsb_exists. split.
  - intros (other & Hin & Heq). apply Wall_eqb_eq in Heq. subst other. exact Hin.
  - intros Hin. exists wall. split; [exact Hin | apply Wall_eqb_eq; reflexivity].
Qed.

Lemma findWall_In (e : QuoridorEngine_t) (wall : WallPiece_t) :
  findWall e wall = true <-> In wall (m_walls_on_board e).
Proof.
  apply WallSet_mem_In.
Qed.

Lemma wall_conflict_cases (a b : WallPiece_t) :
  wall_conflict a b = true ->
  let vertical := WallPiece.vertical a in
  b = a
  \/ b = WallPiece.mk (WallPiece.pos a) (negb vertical)
  \/ b = WallPiece.mk (mkPos (x (WallPiece.pos a) + Z.b2z (negb vertical))
                             (y (WallPiece.pos a) + Z.b2z vertical)) vertical
  \/ b = WallPiece.mk (mkPos (x (WallPiece.pos a) - Z.b2z (negb vertical))
                             (y (WallPiece.pos a) - Z.b2z vertical)) vertical.
Proof.
  destruct a as [pa va], b as [pb vb]. unfold wall_conflict.
  cbn [WallPiece.pos WallPiece.vertical]. cbv zeta.
  rewrite orb_true_iff, andb_true_iff, orb_true_iff, !Pos_eqb_eq, Bool.eqb_true_iff.
  intros [-> | [-> [-> | ->]]]; auto.
  destruct va, vb; auto.
Qed.

Lemma wall_conflict_sym (a b : WallPiece_t) : wall_conflict a b = wall_conflict b a.
Proof.
  destruct a as [[ax ay] va], b as [[bx b_y] vb]. unfold wall_conflict, Pos_eqb.
  cbn [WallPiece.pos WallPiece.vertical x y]. cbv zeta.
  apply eq_true_iff_eq.
  rewrite !orb_true_iff, !andb_true_iff, !orb_true_iff, !andb_true_iff,
    !Z.eqb_eq, !Bool.eqb_true_iff.
  destruct va, vb; cbn [negb Z.b2z]; intuition (try congruence; try lia).
Qed.

Lemma CheckAddWall_conflict (e : QuoridorEngine_t) (wall placed : WallPiece_t) :
  findWall e placed = true ->
  wall_conflict wall placed = true ->
  CheckAddWall e wall = false.
Proof.
  intros Hplaced Hconflict. unfold CheckAddWall.
  destruct (IsWallLegal wall) eqn:Hlegal; cbn [negb]; [|reflexivity].
  apply IsWallLegal_bounds in Hlegal. cbv zeta.
  rewrite !to_int8_small by (destruct (WallPiece.vertical wall); cbn [negb Z.b2z]; lia).
  destruct (wall_conflict_cases wall placed Hconflict) as [-> | [-> | [-> | ->]]];
    rewrite Hplaced; cbn [negb andb]; rewrite ?andb_false_r; reflexivity.
Qed.

(** X10. A wall that shares its slot with a wall on the board (in either
    orientation), or has the orientation of a wall on the board and lies one
    slot from it along their axis, is refused: [AddWall] throws
    [IllegalMoveException] and writes nothing. *)
Theorem AddWall_refuses_conflicting_wall (e : QuoridorEngine_t) (wall placed : WallPiece_t) :
  findWall e placed = true ->
  wall_conflict wall placed = true ->
  CheckAddWall e wall = false
  /\ AddWall wall e = (Throw IllegalMoveException, e).
Proof.
  intros Hplaced Hconflict.
  assert (Hcheck : CheckAddWall e wall = false)
    by exact (CheckAddWall_conflict e wall placed Hplaced Hconflict).
  split; [exact Hcheck|].
  unfold AddWall, M_bind, read, throw. rewrite Hcheck. reflexivity.
Qed.

Lemma AddWall_refuses_conflicting_wall_witness :
  AddWall (WallPiece.mk (mkPos 1 4) false) one_horizontal_wall
  = (Throw IllegalMoveException, one_horizontal_wall).
Proof.
  apply (AddWall_refuses_conflicting_wall one_horizontal_wall
           (WallPiece.mk (mkPos 1 4) false) (WallPiece.mk (mkPos 0 4) false));
    reflexivity.
Defined.

Lemma AddWall_cases (wall : WallPiece_t) (e : QuoridorEngine_t) :
  AddWall wall e
  = if CheckAddWall e wall
    then (Val tt, mkEngine (mkBoard (players (m_board e)) (walls (m_board e) ++ [wall]))
                           (m_current_player e)
                           (WallSet_emplace wall (m_walls_on_board e)))
    else (Throw IllegalMoveException, e).
Proof.
  unfold AddWall, M_bind, read, throw, modify.
  destruct (CheckAddWall e wall); reflexivity.
Qed.

Lemma CheckAddWall_true_inv (e : QuoridorEngine_t) (wall : WallPiece_t) :
  CheckAddWall e wall = true ->
  IsWallLegal wall = true /\ findWall e wall = false.
Proof.
  unfold CheckAddWall. destruct (IsWallLegal wall); cbn [negb]; [|discriminate].
  cbv zeta. rewrite !andb_true_iff, !negb_true_iff. tauto.
Qed.

(** X11. When [AddWall] returns, the wall lies on a slot of the board and
    was not on the board before; the wall set now holds it beside the walls
    it held, the wall is the last entry of the wall list of the board, and
    adding it again is refused. The pieces and the current player are
    untouched. *)
Theorem AddWall_places_the_wall (wall : WallPiece_t) (e e' : QuoridorEngine_t) :
  AddWall wall e = (Val tt, e') ->
  IsWallLegal wall = true
  /\ findWall e wall = false
  /\ findWall e' wall = true
  /\ (forall other, findWall e' other = findWall e other || Wall_eqb other wall)
  /\ walls (m_board e') = walls (m_board e) ++ [wall]
  /\ players (m_board e') = players (m_board e)
  /\ m_current_player e' = m_current_player e
  /\ AddWall wall e' = (Throw IllegalMoveException, e').
Proof.
  rewrite AddWall_cases. destruct (CheckAddWall e wall) eqn:Hcheck; [|discriminate].
  destruct (CheckAddWall_true_inv e wall Hcheck) as [Hlegal Hnew].
  intros H; inversion H; subst e'; clear H.
  assert (Hset : WallSet_emplace wall (m_walls_on_board e) = m_walls_on_board e ++ [wall]).
  { unfold WallSet_emplace. unfold findWall in Hnew. rewrite Hnew. reflexivity. }
  assert (Hfound : findWall (mkEngine (mkBoard (players (m_board e))
                                               (walls (m_board e) ++ [wall]))
                                      (m_current_player e)
                                      (WallSet_emplace wall (m_walls_on_board e))) wall
                   = true).
  { apply findWall_In. cbn [m_walls_on_board]. rewrite Hset.
    apply in_or_app. right. left. reflexivity. }
  repeat split; try assumption; try reflexivity.
  - intros other. unfold findWall. cbn [m_walls_on_board]. rewrite Hset.
    unfold WallSet_mem. rewrite existsb_app. cbn [existsb]. rewrite orb_false_r.
    reflexivity.
  - rewrite AddWall_cases.
    rewrite (CheckAddWall_conflict _ wall wall Hfound); [reflexivity|].
    unfold wall_conflict. rewrite Pos_eqb_refl. reflexivity.
Qed.

Lemma AddWall_places_the_wall_witness :
  findWall one_horizontal_wall (WallPiece.mk (mkPos 0 4) false) = true
  /\ walls (m_board one_horizontal_wall) = [WallPiece.mk (mkPos 0 4) false].
Proof.
  destruct (AddWall_places_the_wall (WallPiece.mk (mkPos 0 4) false)
              two_players one_horizontal_wall eq_refl)
    as (_ & _ & Hfound & _ & Hlist & _).
  split; [exact Hfound | exact Hlist].
Defined.

(** ** The walls of every board the commands reach *)

Lemma QuoridorInit_loop_walls (player_names : list string) (count : nat) :
  forall (i : Z) (e : QuoridorEngine_t),
    let e' := snd (for_loop count i (push_player player_names) e) in
    walls (m_board e') = walls (m_board e) /\ m_walls_on_board e' = m_walls_on_board e.
Proof.
  induction count as [|count IH]; intros i e; cbn [for_loop].
  - split; reflexivity.
  - cbv zeta. unfold M_bind.
    destruct (push_player_cases player_names i e) as [(start & player_name & ->) | ->].
    + destruct (IH (i + 1) (set_players e (players (m_board e) ++
                                           [PlayerPiece.mk start player_name])))
        as [Hwalls Hset].
      cbv zeta in Hwalls, Hset. rewrite Hwalls, Hset. split; reflexivity.
    + split; reflexivity.
Qed.

Lemma QuoridorInit_walls (player_names : list string) (e : QuoridorEngine_t) :
  let e' := snd (QuoridorInit player_names e) in
  walls (m_board e') = walls (m_board e) /\ m_walls_on_board e' = m_walls_on_board e.
Proof.
  unfold QuoridorInit.
  destruct (to_int (Z.of_nat (List.length player_names)) <? 2).
  - split; reflexivity.
  - apply QuoridorInit_loop_walls.
Qed.

Lemma MovePlayer_walls (NDEBUG : bool) (player_name : string) (new_pos : Pos_t)
  (e : QuoridorEngine_t) :
  let e' := snd (MovePlayer NDEBUG player_name new_pos e) in
  walls (m_board e') = walls (m_board e) /\ m_walls_on_board e' = m_walls_on_board e.
Proof.
  cbv zeta. rewrite MovePlayer_cases.
  destruct (IsMovePossible NDEBUG e player_name new_pos) as [[|]| | |];
    split; reflexivity.
Qed.

Lemma walls_apart_add (e : QuoridorEngine_t) (wall : WallPiece_t) :
  walls_apart (m_walls_on_board e) ->
  CheckAddWall e wall = true ->
  walls_apart (m_walls_on_board e ++ [wall]).
Proof.
  intros (Hnodup & Hlegal & Hpairs) Hcheck.
  destruct (CheckAddWall_true_inv e wall Hcheck) as [Hwall Hnew].
  assert (Hnotin : ~ In wall (m_walls_on_board e)).
  { intros Hin. apply findWall_In in Hin. congruence. }
  assert (Hfresh : forall placed, In placed (m_walls_on_board e) ->
                                  wall_conflict wall placed = false).
  { intros placed Hin. destruct (wall_conflict wall placed) eqn:Hconflict; [|reflexivity].
    apply findWall_In in Hin.
    rewrite (CheckAddWall_conflict e wall placed Hin Hconflict) in Hcheck. discriminate. }
  repeat split.
  - apply NoDup_app; [exact Hnodup | repeat constructor; intros [] |].
    intros placed Hin [<- | []]. exact (Hnotin Hin).
  - apply Forall_app. split; [exact Hlegal | constructor; [exact Hwall | constructor]].
  - intros a b Ha Hb Hne.
    apply in_app_or in Ha. apply in_app_or in Hb.
    destruct Ha as [Ha | [<- | []]], Hb as [Hb | [<- | []]].
    + apply Hpairs; assumption.
    + rewrite wall_conflict_sym. apply Hfresh. exact Ha.
    + apply Hfresh. exact Hb.
    + congruence.
Qed.

Lemma run_command_walls_in_order (NDEBUG : bool) (c : command) (e : QuoridorEngine_t) :
  walls_in_order e -> walls_in_order (snd (run_command NDEBUG c e)).
Proof.
  intros [Hsame Hapart]. unfold walls_in_order.
  destruct c as [player_name new_pos | wall | player_names]; cbn [run_command].
  - destruct (MovePlayer_walls NDEBUG player_name new_pos e) as [Hwalls Hset].
    cbv zeta in Hwalls, Hset. rewrite Hwalls, Hset. split; assumption.
  - rewrite AddWall_cases. destruct (CheckAddWall e wall) eqn:Hcheck; cbn [snd].
    + destruct (CheckAddWall_true_inv e wall Hcheck) as [_ Hnew].
      cbn [m_walls_on_board m_board walls]. unfold WallSet_emplace.
      unfold findWall in Hnew. rewrite Hnew. split.
      * rewrite Hsame. reflexivity.
      * apply walls_apart_add; assumption.
    + split; assumption.
  - destruct (QuoridorInit_walls player_names e) as [Hwalls Hset].
    cbv zeta in Hwalls, Hset. rewrite Hwalls, Hset. split; assumption.
Qed.

Lemma run_commands_walls_in_order (NDEBUG : bool) (cs : list command) :
  forall e : QuoridorEngine_t,
    walls_in_order e -> walls_in_order (snd (run_commands NDEBUG cs e)).
Proof.
  induction cs as [|c rest IH]; intros e Hinv; cbn [run_commands].
  - exact Hinv.
  - unfold M_bind.
    pose proof (run_command_walls_in_order NDEBUG c e Hinv) as Hstep.
    destruct (run_command NDEBUG c e) as [[[]| | |] e1]; cbn [snd] in *;
      [apply IH; exact Hstep | exact Hstep | exact Hstep | exact Hstep].
Qed.

(** X12. On every board that [MovePlayer], [AddWall] and [QuoridorInit]
    reach from a new engine, in any number and order and however each call
    ends, the wall set of the engine holds exactly the walls of the board's
    wall list, no wall occurs twice in that list, every wall lies on a slot
    of the board, and no two walls share a slot or overlap along their
    axis. *)
Theorem reachable_walls_in_order (NDEBUG : bool) (cs : list command) :
  let e := snd (run_commands NDEBUG cs new_engine) in
  (forall wall, findWall e wall = true <-> In wall (walls (m_board e)))
  /\ NoDup (walls (m_board e))
  /\ (forall wall, findWall e wall = true -> IsWallLegal wall = true)
  /\ forall a b, findWall e a = true -> findWall e b = true -> a <> b ->
       wall_conflict a b = false.
Proof.
  assert (Hnew : walls_in_order new_engine).
  { split; [reflexivity|]. repeat split; [constructor | constructor | intros a b []]. }
  destruct (run_commands_walls_in_order NDEBUG cs new_engine Hnew)
    as (Hsame & Hnodup & Hlegal & Hpairs).
  cbv zeta. repeat split.
  - rewrite findWall_In, Hsame. tauto.
  - rewrite findWall_In, Hsame. tauto.
  - rewrite <- Hsame. exact Hnodup.
  - intros wall Hfound. apply findWall_In in Hfound.
    rewrite Forall_forall in Hlegal. exact (Hlegal wall Hfound).
  - intros a b Ha Hb Hne. apply findWall_In in Ha. apply findWall_In in Hb.
    exact (Hpairs a b Ha Hb Hne).
Qed.

(** ** The wall that is not on the board yet *)

Lemma WallSet_mem_app (probe wall : WallPiece_t) (s : WallSet) :
  WallSet_mem probe (s ++ [wall]) = WallSet_mem probe s || Wall_eqb probe wall.
Proof.
  unfold WallSet_mem. rewrite existsb_app. cbn [existsb]. rewrite orb_false_r. reflexivity.
Qed.

Lemma eqb_negb_l (u v : bool) : Bool.eqb (negb u) v = negb (Bool.eqb u v).
Proof.
  destruct u, v; reflexivity.
Qed.

(** X13. The check against a wall that is not placed is the check against
    the board with that wall placed: when [AddWall] of a wall returns, the
    helper on the new board reports a wall between two positions exactly
    when the helper on the old board or the three-argument helper for that
    wall does, and it passes or fails its assertion as they do. This is the
    pair of tests that [CheckWallBlocksPath] makes on every edge. *)
Theorem hypothetical_wall_is_placed_wall (NDEBUG : bool) (wall : WallPiece_t)
  (e e' : QuoridorEngine_t) (a b : Pos_t) :
  AddWall wall e = (Val tt, e') ->
  IsWallBetweenAdjPos NDEBUG e' a b
  = (on_board <- IsWallBetweenAdjPos NDEBUG e a b ;;
     added <- IsWallBetweenAdjPos_wall NDEBUG a b wall ;;
     Val (on_board || added)).
Proof.
  rewrite AddWall_cases. destruct (CheckAddWall e wall) eqn:Hcheck; [|discriminate].
  intros Hadd; inversion Hadd; subst e'; clear Hadd.
  destruct (CheckAddWall_true_inv e wall Hcheck) as [Hlegal Hnew].
  unfold IsWallBetweenAdjPos, IsWallBetweenAdjPos_wall, assert, findWall.
  cbn [m_walls_on_board]. unfold WallSet_emplace. unfold findWall in Hnew.
  rewrite Hnew, Hlegal.
  destruct (Z.abs (x b - x a) + Z.abs (y b - y a) =? 1), NDEBUG; cbn [result_bind];
    try reflexivity.
  all: destruct (negb (IsPosLegal a) || negb (IsPosLegal b)); cbn [result_bind negb orb];
    [reflexivity|].
  all: cbv zeta; f_equal; rewrite !WallSet_mem_app; unfold Wall_eqb;
    cbn [WallPiece.pos WallPiece.vertical];
    rewrite eqb_negb_l, !(Pos_eqb_sym (WallPiece.pos wall));
    match goal with
    | |- (?f1 || ?p1 && ?v) || (?f2 || ?p2 && ?v) = _ =>
        destruct f1, f2, p1, p2, v; reflexivity
    end.
Qed.

Lemma hypothetical_wall_is_placed_wall_witness :
  IsWallBetweenAdjPos false one_horizontal_wall (mkPos 0 4) (mkPos 0 5) = Val true.
Proof.
  rewrite (hypothetical_wall_is_placed_wall false (WallPiece.mk (mkPos 0 4) false)
             two_players one_horizontal_wall (mkPos 0 4) (mkPos 0 5) eq_refl).
  reflexivity.
Defined.

(** ** The winner *)

Lemma FindWinner_from_inv (rest : PlayersList_t) :
  forall (player_index : Z) (winner : string),
    FindWinner_from player_index rest = Val winner ->
    string_empty winner = false ->
    exists (it : nat) (player_piece : PlayerPiece_t) (goal_pos : PosSet),
      nth_error rest it = Some player_piece
      /\ PlayerPiece.name player_piece = winner
      /\ GetGoalPosForPlayerIndex (player_index + Z.of_nat it) = Val goal_pos
      /\ PosSet_mem (PlayerPiece.pos player_piece) goal_pos = true
      /\ forall earlier other, (earlier < it)%nat -> nth_error rest earlier = Some other ->
           exists other_goal,
             GetGoalPosForPlayerIndex (player_index + Z.of_nat earlier) = Val other_goal
             /\ PosSet_mem (PlayerPiece.pos other) other_goal = false.
Proof.
  induction rest as [|first rest IH]; intros player_index winner; cbn [FindWinner_from].
  - intros H; inversion H; subst winner. discriminate.
  - destruct (GetGoalPosForPlayerIndex player_index) as [goal_pos| | |] eqn:Hgoal;
      cbn [result_bind]; try discriminate.
    destruct (PosSet_mem (PlayerPiece.pos first) goal_pos) eqn:Hmem.
    + intros H _; inversion H; subst winner.
      exists O, first, goal_pos. cbn [nth_error]. rewrite Z.add_0_r.
      repeat split; try assumption. intros earlier other Hlt; lia.
    + intros Hfind Hname.
      destruct (IH (player_index + 1) winner Hfind Hname)
        as (it & player_piece & goal' & Hnth & Hn & Hg & Hm & Hearlier).
      exists (S it), player_piece, goal'. cbn [nth_error].
      replace (player_index + Z.of_nat (S it)) with (player_index + 1 + Z.of_nat it) by lia.
      repeat split; try assumption.
      intros [|earlier] other Hlt Hother; cbn [nth_error] in Hother.
      * inversion Hother; subst other. exists goal_pos. rewrite Z.add_0_r. split; assumption.
      * replace (player_index + Z.of_nat (S earlier))
          with (player_index + 1 + Z.of_nat earlier) by lia.
        apply (Hearlier earlier other); [lia | exact Hother].
Qed.

(** X14. When [IsGameOver] answers [true], [FindWinner] returns the name,
    which is not empty, of a piece that stands on a goal position of its own
    index in the roster, and no piece before it in the roster stands on a
    goal position of its index. *)
Theorem IsGameOver_names_first_piece_on_goal (e : QuoridorEngine_t) :
  IsGameOver e = Val true ->
  exists (it : nat) (player_piece : PlayerPiece_t) (goal_pos : PosSet),
    nth_error (players (m_board e)) it = Some player_piece
    /\ FindWinner e = Val (PlayerPiece.name player_piece)
    /\ string_empty (PlayerPiece.name player_piece) = false
    /\ GetGoalPosForPlayerIndex (Z.of_nat it) = Val goal_pos
    /\ PosSet_mem (PlayerPiece.pos player_piece) goal_pos = true
    /\ forall earlier other, (earlier < it)%nat ->
         nth_error (players (m_board e)) earlier = Some other ->
         exists other_goal,
           GetGoalPosForPlayerIndex (Z.of_nat earlier) = Val other_goal
           /\ PosSet_mem (PlayerPiece.pos other) other_goal = false.
Proof.
  unfold IsGameOver. destruct (FindWinner e) as [winner| | |] eqn:Hfind;
    cbn [result_bind]; try discriminate.
  intros Hover. assert (Hname : string_empty winner = false).
  { inversion Hover as [Hneg]. apply negb_true_iff in Hneg. exact Hneg. }
  unfold FindWinner in Hfind.
  destruct (FindWinner_from_inv _ 0 winner Hfind Hname)
    as (it & player_piece & goal_pos & Hnth & Hn & Hg & Hm & Hearlier).
  exists it, player_piece, goal_pos. subst winner. repeat split; try assumption.
Qed.

Lemma IsGameOver_names_first_piece_on_goal_witness :
  exists (it : nat) (player_piece : PlayerPiece_t),
    nth_error [PlayerPiece.mk (mkPos 3 4) "A"%string; PlayerPiece.mk (mkPos 0 2) "B"%string] it
    = Some player_piece
    /\ PlayerPiece.name player_piece = "B"%string.
Proof.
  destruct (IsGameOver_names_first_piece_on_goal
              (mkEngine (mkBoard [PlayerPiece.mk (mkPos 3 4) "A"%string;
                                  PlayerPiece.mk (mkPos 0 2) "B"%string] []) 0 [])
              eq_refl)
    as (it & player_piece & goal_pos & Hnth & Hfind & _).
  exists it, player_piece. split; [exact Hnth|].
  inversion Hfind. reflexivity.
Defined.

Lemma column_8_is_goal_of_player_0 (pos : Pos_t) :
  x pos = 8 -> 0 <= y pos <= 8 ->
  PosSet_mem pos (map (fun j => mkPos 8 j) [0; 1; 2; 3; 4; 5; 6; 7; 8]) = true.
Proof.
  destruct pos as [px py]. cbn [x y]. intros -> Hy.
  assert (Hcases : py = 0 \/ py = 1 \/ py = 2 \/ py = 3 \/ py = 4
                   \/ py = 5 \/ py = 6 \/ py = 7 \/ py = 8) by lia.
  repeat (destruct Hcases as [-> | Hcases]; [reflexivity|]). subst py. reflexivity.
Qed.

(** X15. When the first piece of the roster stands on the column x = 8 of
    the board, [FindWinner] returns its name, whatever the other pieces do;
    and [IsGameOver] answers [true] unless that name is the empty string, in
    which case the game is not reported as over. *)
Theorem first_piece_on_far_column_wins (e : QuoridorEngine_t) (first : PlayerPiece_t)
  (rest : PlayersList_t) :
  players (m_board e) = first :: rest ->
  x (PlayerPiece.pos first) = 8 ->
  0 <= y (PlayerPiece.pos first) <= 8 ->
  FindWinner e = Val (PlayerPiece.name first)
  /\ IsGameOver e = Val (negb (string_empty (PlayerPiece.name first))).
Proof.
  intros Hplayers Hx Hy.
  assert (Hfind : FindWinner e = Val (PlayerPiece.name first)).
  { unfold FindWinner. rewrite Hplayers. cbn [FindWinner_from].
    rewrite (proj1 GetGoalPosForPlayerIndex_columns). cbn [result_bind].
    rewrite (column_8_is_goal_of_player_0 _ Hx Hy). reflexivity. }
  split; [exact Hfind|]. unfold IsGameOver. rewrite Hfind. reflexivity.
Qed.

Lemma first_piece_on_far_column_wins_witness :
  IsGameOver (mkEngine (mkBoard [PlayerPiece.mk (mkPos 8 1) ""%string;
                                 PlayerPiece.mk (mkPos 0 4) "B"%string] []) 0 [])
  = Val false.
Proof.
  apply (first_piece_on_far_column_wins
           (mkEngine (mkBoard [PlayerPiece.mk (mkPos 8 1) ""%string;
                               PlayerPiece.mk (mkPos 0 4) "B"%string] []) 0 [])
           (PlayerPiece.mk (mkPos 8 1) ""%string)
           [PlayerPiece.mk (mkPos 0 4) "B"%string]);
    simpl; try reflexivity; lia.
Defined.

(** X16. With five pieces or more on the roster, none of the first four on
    a goal position of its index, [FindWinner] goes on to index 4 and reads
    [player_positions[4]], past the end of the array: the call, and
    [IsGameOver] with it, is undefined. Two calls of [QuoridorInit] with
    four names make such a roster. *)
Theorem FindWinner_with_five_pieces_is_undefined (e : QuoridorEngine_t)
  (p0 p1 p2 p3 p4 : PlayerPiece_t) (rest : PlayersList_t) :
  players (m_board e) = p0 :: p1 :: p2 :: p3 :: p4 :: rest ->
  x (PlayerPiece.pos p0) <> 8 ->
  x (PlayerPiece.pos p1) <> 0 ->
  y (PlayerPiece.pos p2) <> 4 ->
  y (PlayerPiece.pos p3) <> 4 ->
  FindWinner e = Undefined /\ IsGameOver e = Undefined.
Proof.
  intros Hplayers H0 H1 H2 H3.
  assert (Hmem : forall (pos : Pos_t) (goal : Z -> Pos_t) (js : list Z),
             (forall j, goal j <> pos) -> PosSet_mem pos (map goal js) = false).
  { intros pos goal js Hne. unfold PosSet_mem. induction js as [|j js IH]; cbn [map existsb].
    - reflexivity.
    - rewrite IH, orb_false_r. apply Pos_eqb_neq. intros Heq. exact (Hne j (eq_sym Heq)). }
  assert (Hfind : FindWinner e = Undefined).
  { unfold FindWinner. rewrite Hplayers. cbn [FindWinner_from].
    rewrite (proj1 GetGoalPosForPlayerIndex_columns). cbn [result_bind].
    rewrite Hmem by (intros j Heq; apply H0; rewrite <- Heq; reflexivity).
    change (0 + 1) with 1.
    rewrite (proj2 GetGoalPosForPlayerIndex_columns). cbn [result_bind].
    rewrite Hmem by (intros j Heq; apply H1; rewrite <- Heq; reflexivity).
    change (1 + 1) with 2.
    change (GetGoalPosForPlayerIndex 2)
      with (@Val PosSet (map (fun j => mkPos j 4) [0; 1; 2; 3; 4; 5; 6; 7; 8])).
    cbn [result_bind].
    rewrite Hmem by (intros j Heq; apply H2; rewrite <- Heq; reflexivity).
    change (2 + 1) with 3.
    change (GetGoalPosForPlayerIndex 3)
      with (@Val PosSet (map (fun j => mkPos j 4) [0; 1; 2; 3; 4; 5; 6; 7; 8])).
    cbn [result_bind].
    rewrite Hmem by (intros j Heq; apply H3; rewrite <- Heq; reflexivity).
    reflexivity. }
  split; [exact Hfind|]. unfold IsGameOver. rewrite Hfind. reflexivity.
Qed.

Lemma FindWinner_with_five_pieces_is_undefined_witness :
  FindWinner (snd (QuoridorInit ["E"; "F"; "G"; "H"]%string four_players)) = Undefined.
Proof.
  apply (FindWinner_with_five_pieces_is_undefined
           (snd (QuoridorInit ["E"; "F"; "G"; "H"]%string four_players))
           (PlayerPiece.mk (mkPos 0 4) "A"%string) (PlayerPiece.mk (mkPos 8 4) "B"%string)
           (PlayerPiece.mk (mkPos 4 0) "C"%string) (PlayerPiece.mk (mkPos 4 8) "D"%string)
           (PlayerPiece.mk (mkPos 0 4) "E"%string)
           [PlayerPiece.mk (mkPos 8 4) "F"%string; PlayerPiece.mk (mkPos 4 0) "G"%string;
            PlayerPiece.mk (mkPos 4 8) "H"%string]);
    simpl; try reflexivity; lia.
Defined.

(** ** The possible moves *)

Lemma PosSet_mem_In (p : Pos_t) (s : PosSet) : PosSet_mem p s = true <-> In p s.
Proof.
  unfold PosSet_mem. rewrite existsb_exists. split.
  - intros (q & Hin & Heq). apply Pos_eqb_eq in Heq. subst q. exact Hin.
  - intros Hin. exists p. split; [exact Hin | apply Pos_eqb_refl].
Qed.

Lemma PosSet_insert_In (p q : Pos_t) (s : PosSet) :
  In q (PosSet_insert p s) <-> q = p \/ In q s.
Proof.
  unfold PosSet_insert. destruct (PosSet_mem p s) eqn:Hmem.
  - apply PosSet_mem_In in Hmem. split; [tauto | intros [-> | Hin]; assumption].
  - rewrite in_app_iff. cbn [In]. split; intros H; intuition congruence.
Qed.

Lemma PosSet_erase_In (p q : Pos_t) (s : PosSet) :
  In q (PosSet_erase p s) <-> In q s /\ q <> p.
Proof.
  unfold PosSet_erase. rewrite filter_In, negb_true_iff, Pos_eqb_neq. reflexivity.
Qed.

Lemma possible_moves_of_In (NDEBUG : bool) (e : QuoridorEngine_t) (player_pos : Pos_t)
  (moves_to_check : list Pos_t) :
  forall possible_moves,
    possible_moves_of NDEBUG e player_pos moves_to_check = Val possible_moves ->
    forall move, In move possible_moves
                 <-> In move moves_to_check /\ CheckMove NDEBUG e player_pos move = Val true.
Proof.
  induction moves_to_check as [|first rest IH]; intros possible_moves;
    cbn [possible_moves_of].
  - intros H; inversion H. cbn [In]. tauto.
  - destruct (CheckMove NDEBUG e player_pos first) as [legal| | |] eqn:Hmove;
      cbn [result_bind]; try discriminate.
    destruct (possible_moves_of NDEBUG e player_pos rest) as [moves| | |];
      cbn [result_bind]; try discriminate.
    intros H; inversion H; subst possible_moves; clear H. intros move.
    specialize (IH moves eq_refl move). destruct legal; cbn [In]; rewrite ?IH; split.
    + intros [<- | [Hin Hok]]; [split; [left; reflexivity | exact Hmove] | tauto].
    + intros [[<- | Hin] Hok]; [left; reflexivity | right; tauto].
    + tauto.
    + intros [[<- | Hin] Hok]; [congruence | tauto].
Qed.

(** the four neighbours of a cell of the board *)
Lemma neighbours_of_legal (a b : Pos_t) :
  IsPosLegal a = true -> manhattan a b = 1 ->
  In b [Pos_add a left; Pos_add a right; Pos_add a up; Pos_add a down].
Proof.
  intros Hlegal Hdist. apply IsPosLegal_bounds in Hlegal.
  destruct a as [ax ay], b as [bx b_y]. unfold manhattan, Pos_add, left, right, up, down in *.
  cbn [x y In] in *. rewrite !to_int8_small by lia.
  assert (Hcases : (bx = ax + -1 /\ b_y = ay + 0) \/ (bx = ax + 1 /\ b_y = ay + 0)
                   \/ (bx = ax + 0 /\ b_y = ay + -1) \/ (bx = ax + 0 /\ b_y = ay + 1)) by lia.
  destruct Hcases as [[-> ->] | [[-> ->] | [[-> ->] | [-> ->]]]]; auto.
Qed.

(** the same for a cell next to the board *)
Lemma neighbours_near_board (a b : Pos_t) :
  -1 <= x a <= 9 -> -1 <= y a <= 9 -> manhattan a b = 1 ->
  In b [Pos_add a left; Pos_add a right; Pos_add a up; Pos_add a down].
Proof.
  intros Hx Hy Hdist.
  destruct a as [ax ay], b as [bx b_y]. unfold manhattan, Pos_add, left, right, up, down in *.
  cbn [x y In] in *. rewrite !to_int8_small by lia.
  assert (Hcases : (bx = ax + -1 /\ b_y = ay + 0) \/ (bx = ax + 1 /\ b_y = ay + 0)
                   \/ (bx = ax + 0 /\ b_y = ay + -1) \/ (bx = ax + 0 /\ b_y = ay + 1)) by lia.
  destruct Hcases as [[-> ->] | [[-> ->] | [[-> ->] | [-> ->]]]]; auto.
Qed.

Lemma collect_candidates_keeps (e : QuoridorEngine_t) (adj_moves : list Pos_t) :
  forall (acc : PosSet) (q : Pos_t),
    In q acc -> In q (fold_left (collect_candidates e) adj_moves acc).
Proof.
  induction adj_moves as [|adj rest IH]; intros acc q Hin; cbn [fold_left].
  - exact Hin.
  - apply IH. unfold collect_candidates.
    destruct (IsPosFree e adj); rewrite !PosSet_insert_In; tauto.
Qed.

Lemma collect_candidates_In (e : QuoridorEngine_t) (adj_moves : list Pos_t) (adj : Pos_t) :
  In adj adj_moves ->
  forall acc : PosSet,
    (IsPosFree e adj = true -> In adj (fold_left (collect_candidates e) adj_moves acc))
    /\ (IsPosFree e adj = false ->
        forall q, In q [Pos_add adj left; Pos_add adj right; Pos_add adj up; Pos_add adj down] ->
                  In q (fold_left (collect_candidates e) adj_moves acc)).
Proof.
  induction adj_moves as [|first rest IH]; intros Hin acc; [destruct Hin|].
  cbn [fold_left]. destruct Hin as [-> | Hin]; [|apply IH; exact Hin].
  split.
  - intros Hfree. apply collect_candidates_keeps. unfold collect_candidates.
    rewrite Hfree. apply PosSet_insert_In. left. reflexivity.
  - intros Hfree q Hq. apply collect_candidates_keeps. unfold collect_candidates.
    rewrite Hfree. rewrite !PosSet_insert_In. cbn [In] in Hq.
    destruct Hq as [<- | [<- | [<- | [<- | []]]]]; tauto.
Qed.

(** An accepted move over two cells passes a cell next to both ends on
    which a piece stands. *)
Lemma CheckMove_jump_passes_piece (NDEBUG : bool) (e : QuoridorEngine_t)
  (cur_pos new_pos : Pos_t) :
  CheckMove NDEBUG e cur_pos new_pos = Val true ->
  manhattan cur_pos new_pos = 2 ->
  exists pos_jump_over,
    IsPosFree e pos_jump_over = false
    /\ manhattan cur_pos pos_jump_over = 1
    /\ manhattan pos_jump_over new_pos = 1.
Proof.
  intros Haccept Hdist.
  destruct (CheckMove_true_inv NDEBUG e cur_pos new_pos Haccept)
    as (Hcur & Hnew & Hfree & _ & Hwall).
  destruct (CheckMove_diffs cur_pos new_pos Hnew ltac:(lia)) as (Hx & Hy & Hd).
  unfold CheckMove in Haccept. rewrite Hnew, Hfree in Haccept. cbv zeta in Haccept.
  rewrite Hx, Hy, Hd, Hdist, Hwall in Haccept.
  cbn [negb Z.eqb Z.gtb Z.compare Pos.compare Pos.compare_cont orb result_bind Pos.eqb]
    in Haccept.
  apply IsPosLegal_bounds in Hcur, Hnew. unfold manhattan in Hdist.
  destruct ((Z.abs (y new_pos - y cur_pos) =? 2) || (Z.abs (x new_pos - x cur_pos) =? 2))
    eqn:Hstraight.
  - (* the straight jump *)
    assert (Haxis : x cur_pos = x new_pos \/ y cur_pos = y new_pos).
    { apply orb_true_iff in Hstraight. rewrite !Z.eqb_eq in Hstraight. lia. }
    destruct (pos_jump_over_is_midpoint cur_pos new_pos) as [Hjump _];
      [apply IsPosLegal_bounds; exact Hnew | exact Hdist | exact Haxis |].
    rewrite Hjump in Haccept.
    destruct (IsPosFree e (midpoint cur_pos new_pos)) eqn:Hover; [discriminate|].
    exists (midpoint cur_pos new_pos). split; [exact Hover|].
    unfold manhattan, midpoint. cbn [x y].
    split; Z.to_euclidean_division_equations; lia.
  - (* the diagonal jump *)
    apply orb_false_iff in Hstraight. rewrite !Z.eqb_neq in Hstraight.
    unfold diagonal_elbow in Haccept. cbv zeta in Haccept.
    destruct (IsPosFree e (mkPos (x cur_pos) (y new_pos))) eqn:Hfirst.
    + destruct (IsPosFree e (mkPos (x new_pos) (y cur_pos))) eqn:Hsecond;
        [cbn [result_bind] in Haccept; discriminate|].
      exists (mkPos (x new_pos) (y cur_pos)). split; [exact Hsecond|].
      unfold manhattan. cbn [x y]. lia.
    + exists (mkPos (x cur_pos) (y new_pos)). split; [exact Hfirst|].
      unfold manhattan. cbn [x y]. lia.
Qed.

Lemma CheckMove_true_is_candidate (NDEBUG : bool) (e : QuoridorEngine_t)
  (cur_pos new_pos : Pos_t) :
  CheckMove NDEBUG e cur_pos new_pos = Val true ->
  In new_pos (moves_to_check_of e cur_pos).
Proof.
  intros Haccept.
  destruct (CheckMove_true_inv NDEBUG e cur_pos new_pos Haccept)
    as (Hcur & Hnew & Hfree & Hdist & _).
  unfold moves_to_check_of. cbv zeta. apply PosSet_erase_In. split.
  -     assert (Hcases : manhattan cur_pos new_pos = 1 \/ manhattan cur_pos new_pos = 2) by lia.
    destruct Hcases as [Hone | Htwo].
    + destruct (collect_candidates_In e _ new_pos (neighbours_of_legal _ _ Hcur Hone) [])
        as [Hcandidate _].
      apply Hcandidate. exact Hfree.
    + destruct (CheckMove_jump_passes_piece NDEBUG e cur_pos new_pos Haccept Htwo)
        as (over & Hover & Hnear & Hfar).
      destruct (collect_candidates_In e _ over (neighbours_of_legal _ _ Hcur Hnear) [])
        as [_ Hcandidates].
      apply (Hcandidates Hover).
      apply IsPosLegal_bounds in Hcur. unfold manhattan in Hnear.
      apply neighbours_near_board; [lia | lia | exact Hfar].
  - intros ->. unfold manhattan in Hdist. lia.
Qed.

(** X17. When [GetPossibleMoves] returns, the positions in its vector are
    exactly the positions that [CheckMove] accepts from the position of the
    named player: none is missing, none is there that [IsMovePossible]
    refuses, and the position of the player itself is not among them. *)
Theorem GetPossibleMoves_are_the_accepted_moves (NDEBUG : bool) (e : QuoridorEngine_t)
  (player_name : string) (possible_moves : list Pos_t) :
  GetPossibleMoves NDEBUG e player_name = Val possible_moves ->
  exists player_pos,
    GetPlayerPos e player_name = Val player_pos
    /\ ~ In player_pos possible_moves
    /\ forall move, In move possible_moves
                    <-> IsMovePossible NDEBUG e player_name move = Val true.
Proof.
  unfold GetPossibleMoves, IsMovePossible.
  destruct (GetPlayerPos e player_name) as [player_pos| | |]; cbn [result_bind];
    try discriminate.
  intros Hmoves. exists player_pos. split; [reflexivity|].
  pose proof (possible_moves_of_In NDEBUG e player_pos _ possible_moves Hmoves) as Hin.
  split.
  - intros Hself. apply Hin in Hself. destruct Hself as [_ Haccept].
    destruct (CheckMove_true_inv NDEBUG e player_pos player_pos Haccept)
      as (_ & _ & _ & Hdist & _).
    unfold manhattan in Hdist. lia.
  - intros move. rewrite Hin. split; [tauto|].
    intros Haccept. split; [|exact Haccept].
    exact (CheckMove_true_is_candidate NDEBUG e player_pos move Haccept).
Qed.

Lemma GetPossibleMoves_are_the_accepted_moves_witness :
  exists player_pos,
    GetPlayerPos face_to_face "A" = Val player_pos
    /\ ~ In player_pos [mkPos 1 3; mkPos 1 5; mkPos 0 3; mkPos 0 5]
    /\ forall move, In move [mkPos 1 3; mkPos 1 5; mkPos 0 3; mkPos 0 5]
                    <-> IsMovePossible true face_to_face "A" move = Val true.
Proof.
  apply (GetPossibleMoves_are_the_accepted_moves true face_to_face "A").
  reflexivity.
Defined.

(** ** The path finder on any board *)

(** X18. With no piece on the board [CheckWallBlocksPath] returns [false].
    With a piece on the board it is undefined, whatever the wall, the walls
    on the board and the build: for the first piece the goal positions are
    computed and [reachable_pos->insert] then goes through the null pointer
    that [reachable_pos] was initialised to, before the search begins. *)
Theorem CheckWallBlocksPath_goes_through_null_pointer (NDEBUG : bool) (fuel : nat)
  (e : QuoridorEngine_t) (wall : WallPiece_t) :
  CheckWallBlocksPath NDEBUG fuel e wall
  = match players (m_board e) with
    | [] => Some (Val false)
    | _ :: _ => Some Undefined
    end.
Proof.
  unfold CheckWallBlocksPath. destruct (players (m_board e)) as [|first rest].
  - reflexivity.
  - cbn [players_loop]. rewrite (proj1 GetGoalPosForPlayerIndex_columns). reflexivity.
Qed.

(** *** The body of the loop *)

Lemma wall_helpers_return_on_steps (NDEBUG : bool) (e : QuoridorEngine_t)
  (wall : WallPiece_t) (a b : Pos_t) :
  manhattan a b = 1 ->
  (exists on_board, IsWallBetweenAdjPos NDEBUG e a b = Val on_board)
  /\ (exists added, IsWallBetweenAdjPos_wall NDEBUG a b wall = Val added).
Proof.
  intros Hdist. unfold IsWallBetweenAdjPos, IsWallBetweenAdjPos_wall, assert.
  fold (manhattan a b). rewrite Hdist. cbn [Z.eqb Pos.eqb result_bind]. split.
  - destruct (negb (IsPosLegal a) || negb (IsPosLegal b)); eexists; reflexivity.
  - destruct (negb (IsPosLegal a) || negb (IsPosLegal b) || negb (IsWallLegal wall));
      eexists; reflexivity.
Qed.

Lemma neighbours_are_steps (p q : Pos_t) :
  IsPosLegal p = true ->
  In q [Pos_add p left; Pos_add p right; Pos_add p up; Pos_add p down] ->
  manhattan p q = 1 /\ Pos_eqb q p = false.
Proof.
  intros Hlegal Hin. apply IsPosLegal_bounds in Hlegal.
  destruct p as [px py]. unfold Pos_add, left, right, up, down, manhattan in *.
  cbn [x y In] in *. rewrite !to_int8_small in Hin by lia.
  rewrite Pos_eqb_neq.
  destruct Hin as [<- | [<- | [<- | [<- | []]]]]; cbn [x y];
    (split; [lia | intros Heq; inversion Heq; lia]).
Qed.

Lemma PosSet_insert_one (p : Pos_t) (reachable : PosSet) :
  reachable = [] \/ reachable = [p] -> PosSet_insert p reachable = [p].
Proof.
  intros [-> | ->]; unfold PosSet_insert, PosSet_mem; cbn [existsb app];
    [reflexivity | rewrite Pos_eqb_refl; reflexivity].
Qed.

(** The scan of the pairs made from one cell [p] that is not a goal
    position: nothing but [p] gets into [reachable_pos], and [p] gets there
    as soon as one edge is open, since the scan inserts [pos_pair.second],
    the cell the pair was made from. *)
Lemma check_pairs_from_one_cell (NDEBUG : bool) (e : QuoridorEngine_t) (wall : WallPiece_t)
  (goal_pos : PosSet) (p : Pos_t) :
  PosSet_mem p goal_pos = false ->
  forall (pairs : PosMultimap) (reachable : PosSet),
    (forall pos_pair, In pos_pair pairs ->
                      snd pos_pair = p /\ manhattan p (fst pos_pair) = 1) ->
    reachable = [] \/ reachable = [p] ->
    exists reachable',
      check_pairs NDEBUG e wall goal_pos pairs reachable = Val (false, reachable')
      /\ (reachable' = [] \/ reachable' = [p])
      /\ (reachable = [p] -> reachable' = [p])
      /\ (forall q, In (q, p) pairs ->
                    IsWallBetweenAdjPos NDEBUG e p q = Val false ->
                    IsWallBetweenAdjPos_wall NDEBUG p q wall = Val false ->
                    reachable' = [p]).
Proof.
  intros Hgoal. induction pairs as [|[q from] rest IH]; intros reachable Hpairs Hreach;
    cbn [check_pairs].
  - exists reachable. repeat split; [exact Hreach | tauto | intros q []].
  - destruct (Hpairs (q, from) (or_introl eq_refl)) as [Hfrom Hstep].
    cbn [fst snd] in Hfrom, Hstep. subst from. cbn [fst snd].
    assert (Hrest : forall pos_pair, In pos_pair rest ->
                                     snd pos_pair = p /\ manhattan p (fst pos_pair) = 1)
      by (intros pos_pair Hin; apply Hpairs; right; exact Hin).
    destruct (wall_helpers_return_on_steps NDEBUG e wall p q Hstep)
      as [[on_board Hboard] [added Hadded]].
    rewrite Hboard. cbn [result_bind].
    destruct on_board; cbn [result_bind].
    + destruct (IH reachable Hrest Hreach) as (reachable' & Hscan & Hshape & Hkeep & Hopen).
      exists reachable'. repeat split; try assumption.
      intros q' [Heq | Hin] Hb Ha; [inversion Heq; subst q'; congruence|].
      exact (Hopen q' Hin Hb Ha).
    + rewrite Hadded. cbn [result_bind]. destruct added; cbn [negb].
      * destruct (IH reachable Hrest Hreach) as (reachable' & Hscan & Hshape & Hkeep & Hopen).
        exists reachable'. repeat split; try assumption.
        intros q' [Heq | Hin] Hb Ha; [inversion Heq; subst q'; congruence|].
        exact (Hopen q' Hin Hb Ha).
      * rewrite Hgoal, (PosSet_insert_one p reachable Hreach).
        destruct (IH [p] Hrest (or_intror eq_refl))
          as (reachable' & Hscan & Hshape & Hkeep & Hopen).
        exists reachable'. repeat split; try assumption.
        -- intros _. apply Hkeep. reflexivity.
        -- intros q' _ _ _. apply Hkeep. reflexivity.
Qed.

Lemma pairs_of_one_cell (p : Pos_t) (last : PosSet) :
  IsPosLegal p = true ->
  last = [] \/ last = [p] ->
  erase_last_iter last (insert_neighbours [p] [])
  = [(Pos_add p left, p); (Pos_add p right, p); (Pos_add p up, p); (Pos_add p down, p)].
Proof.
  intros Hlegal [-> | ->]; [reflexivity|].
  unfold erase_last_iter, insert_neighbours, PosMultimap_erase.
  cbn [fold_left app filter fst].
  destruct (neighbours_are_steps p (Pos_add p left) Hlegal) as [_ ->]; [cbn [In]; tauto|].
  destruct (neighbours_are_steps p (Pos_add p right) Hlegal) as [_ ->]; [cbn [In]; tauto|].
  destruct (neighbours_are_steps p (Pos_add p up) Hlegal) as [_ ->]; [cbn [In]; tauto|].
  destruct (neighbours_are_steps p (Pos_add p down) Hlegal) as [_ ->]; [cbn [In]; tauto|].
  reflexivity.
Qed.

(** A turn of the loop that starts from two sets in place, with one cell
    [p] of the board reachable, not a goal position and with an open edge,
    ends with [p] alone reachable again: the body does not move on to the
    neighbour. *)
Lemma path_step_stays (NDEBUG : bool) (e : QuoridorEngine_t) (wall : WallPiece_t)
  (goal_pos : PosSet) (p q : Pos_t) (last : PosSet) :
  IsPosLegal p = true ->
  PosSet_mem p goal_pos = false ->
  In q [Pos_add p left; Pos_add p right; Pos_add p up; Pos_add p down] ->
  IsWallBetweenAdjPos NDEBUG e p q = Val false ->
  IsWallBetweenAdjPos_wall NDEBUG p q wall = Val false ->
  last = [] \/ last = [p] ->
  path_step NDEBUG e wall goal_pos (mkPathState (Some [p]) (Some last) [])
  = Val (Continue (mkPathState (Some [p]) (Some [p]) [])).
Proof.
  intros Hlegal Hgoal Hq Hboard Hadded Hlast. unfold path_step.
  cbn [reachable_pos last_iter_pos to_from_check_pairs deref result_bind]. cbv zeta.
  rewrite (pairs_of_one_cell p last Hlegal Hlast).
  destruct (check_pairs_from_one_cell NDEBUG e wall goal_pos p Hgoal
              [(Pos_add p left, p); (Pos_add p right, p); (Pos_add p up, p); (Pos_add p down, p)]
              [])
    as (reachable' & -> & _ & _ & Hopen).
  - intros pos_pair Hin. cbn [In] in Hin.
    destruct Hin as [<- | [<- | [<- | [<- | []]]]]; cbn [fst snd];
      (split; [reflexivity | apply neighbours_are_steps; [exact Hlegal | cbn [In]; tauto]]).
  - left. reflexivity.
  - rewrite (Hopen q); try assumption; [reflexivity|].
    cbn [In] in *. destruct Hq as [<- | [<- | [<- | [<- | []]]]]; tauto.
Qed.

(** ** The wall validator, in full *)

Lemma WallSet_mem_false (probe : WallPiece_t) (s : WallSet) :
  WallSet_mem probe s = false <-> ~ In probe s.
Proof.
  rewrite <- WallSet_mem_In. destruct (WallSet_mem probe s); split; congruence.
Qed.

(** X20. [CheckAddWall] accepts a wall exactly when it lies on a slot of
    the board and no wall of the wall set shares its slot or, with its
    orientation, lies one slot from it along their axis. *)
Theorem CheckAddWall_accepts_exactly_free_slots (e : QuoridorEngine_t) (wall : WallPiece_t) :
  CheckAddWall e wall = true
  <-> IsWallLegal wall = true
      /\ forall placed, In placed (m_walls_on_board e) -> wall_conflict wall placed = false.
Proof.
  split.
  - intros Hcheck. split; [apply (CheckAddWall_true_inv e wall Hcheck)|].
    intros placed Hin. destruct (wall_conflict wall placed) eqn:Hconflict; [|reflexivity].
    apply findWall_In in Hin.
    rewrite (CheckAddWall_conflict e wall placed Hin Hconflict) in Hcheck. discriminate.
  - intros [Hlegal Hfree]. unfold CheckAddWall. rewrite Hlegal. cbn [negb]. cbv zeta.
    apply IsWallLegal_bounds in Hlegal.
    rewrite !to_int8_small by (destruct (WallPiece.vertical wall); cbn [negb Z.b2z]; lia).
    assert (Hprobe : forall probe, wall_conflict wall probe = true -> findWall e probe = false).
    { intros probe Hconflict. apply WallSet_mem_false. intros Hin.
      rewrite (Hfree probe Hin) in Hconflict. discriminate. }
    rewrite !Hprobe; [reflexivity | | | |];
      destruct wall as [[wx wy] wv]; unfold wall_conflict, Pos_eqb;
      cbn [WallPiece.pos WallPiece.vertical x y]; rewrite ?Z.eqb_refl, ?Bool.eqb_reflx;
      cbn [andb orb]; rewrite ?orb_true_r; reflexivity.
Qed.

(** ** The cell left and the cell taken *)

Lemma assign_pos_In_apart (players_list : PlayersList_t) (new_pos q : Pos_t) :
  forall (it : nat) (player_piece : PlayerPiece_t),
    NoDup (map PlayerPiece.pos players_list) ->
    nth_error players_list it = Some player_piece ->
    In q (map PlayerPiece.pos (assign_pos players_list it new_pos)) ->
    q = new_pos \/ (In q (map PlayerPiece.pos players_list) /\ q <> PlayerPiece.pos player_piece).
Proof.
  induction players_list as [|first rest IH]; intros [|it] player_piece Hapart Hnth;
    cbn [nth_error assign_pos map In PlayerPiece.pos] in *; try discriminate;
    inversion Hapart as [|? ? Hfirst Hrest]; subst.
  - inversion Hnth; subst player_piece.
    intros [<- | Hin]; [left; reflexivity|]. right. split; [right; exact Hin|].
    intros ->. exact (Hfirst Hin).
  - intros [<- | Hin].
    + right. split; [left; reflexivity|]. intros Heq. apply Hfirst. rewrite Heq.
      apply in_map. exact (nth_error_In _ _ Hnth).
    + destruct (IH it player_piece Hrest Hnth Hin) as [Hnew | [Hold Hne]];
        [left; exact Hnew | right; split; [right; exact Hold | exact Hne]].
Qed.

(** X21. On a board whose pieces stand on pairwise different cells, when
    [MovePlayer] returns, the cell the piece stood on is free, the cell it
    moved to is occupied, and every other cell is free or occupied as it
    was. *)
Theorem MovePlayer_vacates_and_occupies (NDEBUG : bool) (player_name : string)
  (new_pos old_pos : Pos_t) (e e' : QuoridorEngine_t) :
  NoDup (map PlayerPiece.pos (players (m_board e))) ->
  GetPlayerPos e player_name = Val old_pos ->
  MovePlayer NDEBUG player_name new_pos e = (Val tt, e') ->
  IsPosFree e' old_pos = true
  /\ IsPosFree e' new_pos = false
  /\ forall pos, pos <> old_pos -> pos <> new_pos -> IsPosFree e' pos = IsPosFree e pos.
Proof.
  intros Hapart Hold. rewrite MovePlayer_cases. unfold IsMovePossible. rewrite Hold.
  cbn [result_bind].
  destruct (CheckMove NDEBUG e old_pos new_pos) as [[|]| | |] eqn:Hmove; try discriminate.
  intros H; inversion H; subst e'; clear H.
  destruct (CheckMove_true_inv NDEBUG e old_pos new_pos Hmove) as (_ & _ & Hfree & Hdist & _).
  unfold GetPlayerPos in Hold.
  destruct (nth_error (players (m_board e)) (findPlayer e player_name))
    as [player_piece|] eqn:Hnth; [|discriminate].
  inversion Hold as [Hpos]. clear Hold. subst old_pos.
  set (old_pos := PlayerPiece.pos player_piece) in *.
  assert (Hne : old_pos <> new_pos) by (intros ->; unfold manhattan in Hdist; lia).
  assert (Hin_new : forall q,
             In q (map PlayerPiece.pos
                       (assign_pos (players (m_board e)) (findPlayer e player_name) new_pos))
             -> q = new_pos \/ (In q (map PlayerPiece.pos (players (m_board e))) /\ q <> old_pos)).
  { intros q Hin.
    exact (assign_pos_In_apart _ new_pos q _ player_piece Hapart Hnth Hin). }
  assert (Hin_old : forall q, In q (map PlayerPiece.pos (players (m_board e))) -> q <> old_pos ->
             In q (map PlayerPiece.pos
                       (assign_pos (players (m_board e)) (findPlayer e player_name) new_pos))).
  { intros q Hin Hq. apply in_map_iff in Hin. destruct Hin as (other & Hother & Hin).
    apply In_nth_error in Hin. destruct Hin as [n Hn].
    destruct (Nat.eq_dec n (findPlayer e player_name)) as [-> | Hdiff].
    - pose proof (eq_trans (eq_sym Hn) Hnth) as Hsame. inversion Hsame; subst other.
      exfalso. apply Hq. rewrite <- Hother. reflexivity.
    - apply in_map_iff. exists other. split; [exact Hother|].
      apply (nth_error_In _ n). rewrite assign_pos_other by exact Hdiff. exact Hn. }
  repeat split.
  - apply IsPosFree_not_In. cbn [set_players m_board players]. intros Hin.
    destruct (Hin_new old_pos Hin) as [Heq | [_ Hself]]; [exact (Hne Heq) | exact (Hself eq_refl)].
  - apply not_true_is_false. rewrite IsPosFree_not_In. cbn [set_players m_board players].
    intros Hnot. apply Hnot. apply in_map_iff.
    exists (PlayerPiece.mk new_pos (PlayerPiece.name player_piece)). split; [reflexivity|].
    apply (nth_error_In _ (findPlayer e player_name)). apply assign_pos_nth. exact Hnth.
  - intros pos Hpos_old Hpos_new.
    apply eq_true_iff_eq. rewrite !IsPosFree_not_In. cbn [set_players m_board players].
    split; intros Hnot Hin; apply Hnot.
    + apply Hin_old; assumption.
    + destruct (Hin_new pos Hin) as [Heq | [Hthere _]]; [contradiction | exact Hthere].
Qed.

Lemma MovePlayer_vacates_and_occupies_witness :
  IsPosFree (snd (MovePlayer false "A" (mkPos 0 3) two_players)) (mkPos 0 4) = true
  /\ IsPosFree (snd (MovePlayer false "A" (mkPos 0 3) two_players)) (mkPos 0 3) = false.
Proof.
  destruct (MovePlayer_vacates_and_occupies false "A" (mkPos 0 3) (mkPos 0 4) two_players
              (snd (MovePlayer false "A" (mkPos 0 3) two_players)))
    as (Hold & Hnew & _).
  - repeat constructor; simpl; intros H; repeat destruct H as [H|H]; try discriminate H;
      exact H.
  - reflexivity.
  - reflexivity.
  - split; [exact Hold | exact Hnew].
Defined.

(** ** Turns, on and off the roster *)

(** X22. With the current player on the roster, [NextTurn] returns and
    gives the turn to the next index, from the last player back to 0; the
    index stays on the roster, and the board and the wall set are
    untouched. *)
Theorem NextTurn_passes_the_turn (e e' : QuoridorEngine_t) :
  Z.of_nat (List.length (players (m_board e))) <= INT_MAX ->
  0 <= m_current_player e < Z.of_nat (List.length (players (m_board e))) ->
  NextTurn e = (Val tt, e') ->
  m_current_player e'
  = (if m_current_player e + 1 =? Z.of_nat (List.length (players (m_board e)))
     then 0 else m_current_player e + 1)
  /\ 0 <= m_current_player e' < Z.of_nat (List.length (players (m_board e')))
  /\ m_board e' = m_board e
  /\ m_walls_on_board e' = m_walls_on_board e.
Proof.
  intros Hmax Hcur. rewrite (NextTurn_step e Hmax Hcur).
  intros H; inversion H; subst e'; clear H.
  cbn [set_current_player m_current_player m_board m_walls_on_board].
  repeat split; try (apply Z.mod_pos_bound; lia).
  destruct (Z.eqb_spec (m_current_player e + 1)
                       (Z.of_nat (List.length (players (m_board e))))) as [-> | Hne].
  - apply Z.mod_same. lia.
  - apply Z.mod_small. lia.
Qed.

Lemma NextTurn_passes_the_turn_witness :
  m_current_player (snd (NextTurn (set_current_player four_players 3))) = 0.
Proof.
  apply (NextTurn_passes_the_turn (set_current_player four_players 3)
           (snd (NextTurn (set_current_player four_players 3))));
    try reflexivity; unfold INT_MAX; simpl; lia.
Defined.

Lemma NextTurn_off_roster_step (e : QuoridorEngine_t) :
  Z.of_nat (List.length (players (m_board e))) <= m_current_player e ->
  m_current_player e < INT_MAX ->
  NextTurn e = (Val tt, set_current_player e (m_current_player e + 1)).
Proof.
  intros Hoff Hmax. unfold NextTurn, M_bind, read, modify.
  rewrite to_int_small by (unfold INT_MAX in *; lia).
  destruct (Z.eqb_spec (m_current_player e) INT_MAX) as [Heq|_]; [lia|].
  cbn [set_current_player m_current_player m_board m_walls_on_board].
  destruct (Z.eqb_spec (m_current_player e + 1)
                       (Z.of_nat (List.length (players (m_board e))))) as [Heq|_]; [lia|].
  reflexivity.
Qed.

(** X23. With the current player at or past the end of the roster (as on
    a new engine, which has no players and index 0), [NextTurn] never comes
    back to 0: [k] calls return and leave the index [k] higher, as long as
    it fits an [int]. *)
Theorem NextTurn_off_roster_counts_up (k : nat) :
  forall e : QuoridorEngine_t,
    Z.of_nat (List.length (players (m_board e))) <= m_current_player e ->
    m_current_player e + Z.of_nat k <= INT_MAX ->
    repeat_command k NextTurn e
    = (Val tt, set_current_player e (m_current_player e + Z.of_nat k)).
Proof.
  induction k as [|k IH]; intros e Hoff Hmax.
  - cbn [repeat_command]. unfold M_ret. rewrite Z.add_0_r, set_current_player_same.
    reflexivity.
  - cbn [repeat_command]. unfold M_bind.
    rewrite NextTurn_off_roster_step by lia.
    rewrite (IH (set_current_player e (m_current_player e + 1)))
      by (cbn [set_current_player m_current_player m_board m_walls_on_board]; lia).
    cbn [set_current_player m_current_player m_board m_walls_on_board].
    replace (m_current_player e + 1 + Z.of_nat k)
      with (m_current_player e + Z.of_nat (S k)) by lia.
    reflexivity.
Qed.

Lemma NextTurn_off_roster_counts_up_witness :
  repeat_command 3 NextTurn new_engine = (Val tt, set_current_player new_engine 3).
Proof.
  apply (NextTurn_off_roster_counts_up 3 new_engine); unfold INT_MAX; simpl; lia.
Defined.

(** ** Jumps, with and without assertions *)

Lemma CheckMove_straight_jump_witness :
  CheckMove true face_to_face (mkPos 0 4) (mkPos 2 4)
  = IsWallBetweenAdjPos true face_to_face (midpoint (mkPos 0 4) (mkPos 2 4)) (mkPos 2 4).
Proof.
  apply (CheckMove_straight_jump face_to_face (mkPos 0 4) (mkPos 2 4));
    try reflexivity.
  right. reflexivity.
Defined.

Lemma CheckMove_distance_2_aborts_witness :
  CheckMove false two_players (mkPos 0 4) (mkPos 1 5) = Abort.
Proof.
  apply (CheckMove_distance_2_aborts two_players (mkPos 0 4) (mkPos 1 5)); reflexivity.
Defined.
